(* ===================================================================== *)
(*  A verification development for src/reactive.js                       *)
(*                                                                       *)
(*  reactive.js is a small dependency-tracking engine: [reactiveIt]      *)
(*  wraps a plain object in a Proxy whose get trap calls [track] and     *)
(*  whose set trap assigns and then calls [trigger]; [effect] runs a     *)
(*  callback with the module variable [currentEffect] pointing at it.    *)
(*                                                                       *)
(*  The module state (currentEffect, targetMap) and the JavaScript heap  *)
(*  are threaded explicitly.  Callbacks are client code: they are given  *)
(*  as trees of the operations a callback can perform on the library     *)
(*  (read or write through a handle, call effect, throw, push to an      *)
(*  array), and function identity is a number indexing a table of        *)
(*  bodies.  Since a callback may write and thereby re-enter trigger     *)
(*  without bound, the interpreter is driven by fuel.                    *)
(* ===================================================================== *)

From stdpp Require Import gmap strings list fin_maps.

(* --------------------------------------------------------------------- *)
(*  Data                                                                 *)
(* --------------------------------------------------------------------- *)

(** Identity of a plain JavaScript object (the Proxy target, which is
    also the key of the WeakMap). *)
Abbreviation obj := nat (only parsing).
(** Property keys. *)
Abbreviation key := string (only parsing).
(** Identity of a function value (a callback). *)
Abbreviation fn := nat (only parsing).

(** The JavaScript values stored in the wrapped objects.  The library
    never inspects them. *)
Inductive value :=
| VUndef
| VNum (n : Z)
| VBool (b : bool)
| VStr (s : string).

#[global] Instance value_eq_dec : EqDecision value.
Proof. solve_decision. Defined.

(** History of what happened, kept beside the program state so that
    statements can speak of "invoked exactly once" and "observed the
    value v".  No library function reads it. *)
Inductive event :=
| Invoked (f : fn)
| Observed (target : obj) (p : key) (v : value).

#[global] Instance event_eq_dec : EqDecision event.
Proof. solve_decision. Defined.

Record state := State {
  (** the plain objects: [heap !! o] is the property table of object o *)
  heap : gmap obj (gmap key value);
  (** [let currentEffect = null] *)
  currentEffect : option fn;
  (** [const targetMap = new WeakMap()]: target -> Map(prop -> Set(effect)).
      A JavaScript Set keeps insertion order, has no duplicates, and
      nothing is ever deleted here: a duplicate-free list grown at its
      end. *)
  targetMap : gmap obj (gmap key (list fn));
  (** a client array that callbacks push to *)
  log : list value;
  (** the history above *)
  trace : list event
}.

Definition set_heap (h : gmap obj (gmap key value)) (s : state) : state :=
  State h (currentEffect s) (targetMap s) (log s) (trace s).
Definition set_currentEffect (c : option fn) (s : state) : state :=
  State (heap s) c (targetMap s) (log s) (trace s).
Definition set_targetMap (m : gmap obj (gmap key (list fn))) (s : state) : state :=
  State (heap s) (currentEffect s) m (log s) (trace s).
Definition push_log (v : value) (s : state) : state :=
  State (heap s) (currentEffect s) (targetMap s) (log s ++ [v]) (trace s).
Definition record (e : event) (s : state) : state :=
  State (heap s) (currentEffect s) (targetMap s) (log s) (trace s ++ [e]).

(** How a call completes: it returns, it throws, or the interpreter ran
    out of fuel before it completed. *)
Inductive outcome :=
| Normal (s : state)
| Thrown (e : value) (s : state)
| OutOfFuel.

(** Sequencing: what follows runs only after a normal return. *)
Definition and_then (r : outcome) (k : state -> outcome) : outcome :=
  match r with
  | Normal s => k s
  | Thrown e s => Thrown e s
  | OutOfFuel => OutOfFuel
  end.

Notation "r >>= k" := (and_then r k) (at level 50, left associativity).

(* --------------------------------------------------------------------- *)
(*  reactive.js                                                          *)
(* --------------------------------------------------------------------- *)

(** [deps.add(c)] on a Set. *)
Definition set_add (c : fn) (deps : list fn) : list fn :=
  if decide (c ∈ deps) then deps else deps ++ [c].

(** [target[prop]] on a plain data object: the stored value of an own
    property, or undefined.  This is what JavaScript does for the names
    that [Object.prototype] does not define ([data_key] below); an
    inherited name such as [toString] does not read as undefined. *)
Definition read (target : obj) (prop : key) (s : state) : value :=
  match heap s !! target with
  | Some o => default VUndef (o !! prop)
  | None => VUndef
  end.

(** [target[prop] = value] on a plain data object: the own property is
    created or updated.  Again for the names that [Object.prototype] does
    not define: a primitive written to [__proto__] is dropped. *)
Definition assign (target : obj) (prop : key) (v : value) (s : state) : state :=
  set_heap (<[target := <[prop := v]> (default ∅ (heap s !! target))]> (heap s)) s.

(** The set that [targetMap.get(target)?.get(prop)] denotes, empty when
    either lookup is undefined.  A lookup only. *)
Definition computationsFor (s : state) (target : obj) (prop : key) : list fn :=
  match targetMap s !! target with
  | None => []
  | Some depsMap =>
      match depsMap !! prop with
      | None => []
      | Some deps => deps
      end
  end.

(** [function track(target, prop)] *)
Definition track (target : obj) (prop : key) (s : state) : state :=
  match currentEffect s with
  | Some c =>
      (* let depsMap = targetMap.get(target);
         if (!depsMap) { depsMap = new Map(); targetMap.set(target, depsMap); } *)
      let depsMap :=
        match targetMap s !! target with
        | Some m => m
        | None => ∅
        end in
      (* let deps = depsMap.get(prop);
         if (!deps) { deps = new Set(); depsMap.set(prop, deps); } *)
      let deps :=
        match depsMap !! prop with
        | Some d => d
        | None => []
        end in
      (* deps.add(currentEffect); *)
      set_targetMap (<[target := <[prop := set_add c deps]> depsMap]> (targetMap s)) s
  | None => s
  end.

Section Library.
(** Calling a function value.  The library is written against it; the
    interpreter below supplies it. *)
Variable call : fn -> state -> outcome.

(** [function effect(callback)].  There is no try/finally: the final
    assignment runs only if the call returned. *)
Definition effect (callback : fn) (s : state) : outcome :=
  match currentEffect s with
  | None => call callback (set_currentEffect (Some callback) s)
  | Some _ => Normal s
  end >>= fun s' => Normal (set_currentEffect None s').

(** [deps.forEach((effect) => effect())].  The Set is a live object:
    members added while the iteration runs are visited too, so each
    step reads position [i] of the set as it is in the current state. *)
Fixpoint forEach (fuel : nat) (target : obj) (prop : key) (i : nat) (s : state)
  : outcome :=
  match computationsFor s target prop !! i with
  | None => Normal s
  | Some f =>
      match fuel with
      | 0 => OutOfFuel
      | S fuel' => call f s >>= forEach fuel' target prop (S i)
      end
  end.

(** [function trigger(target, prop)] *)
Definition trigger (fuel : nat) (target : obj) (prop : key) (s : state) : outcome :=
  match targetMap s !! target with
  | None => Normal s                              (* if (!depsMap) return; *)
  | Some depsMap =>
      match depsMap !! prop with
      | None => Normal s                          (* if (deps) ... *)
      | Some _ => forEach fuel target prop 0 s
      end
  end.

(** [handler.get(target, prop)] *)
Definition handler_get (target : obj) (prop : key) (s : state) : value * state :=
  let s' := track target prop s in
  (read target prop s', s').

(** [handler.set(target, prop, value)] *)
Definition handler_set (fuel : nat) (target : obj) (prop : key) (v : value)
  (s : state) : outcome :=
  trigger fuel target prop (assign target prop v s).
End Library.

(** [reactiveIt(object)]: a Proxy over the very same object. *)
Inductive handle := Proxy (target : obj).
Definition reactiveIt (object : obj) : handle := Proxy object.

(* --------------------------------------------------------------------- *)
(*  Client code                                                          *)
(* --------------------------------------------------------------------- *)

(** What a piece of client code (a callback body or a top-level script)
    does, as far as the library is concerned. *)
Inductive prog :=
| Ret                                                   (* return *)
| Throw (e : value)                                     (* throw e *)
| Get (h : handle) (p : key) (k : value -> prog)       (* let v = h[p]; k v *)
| Put (h : handle) (p : key) (v : value) (k : prog)    (* h[p] = v; k *)
| Effect (callback : fn) (k : prog)                     (* effect(callback); k *)
| Push (v : value) (k : prog)                           (* log.push(v); k *)
| Try (body : prog) (handler : value -> prog) (k : prog).
                                          (* try { body } catch (e) { handler e }; k *)

Section Interpreter.
(** The function values of the client program: [body f] is the code of
    the function whose identity is [f]. *)
Variable body : fn -> prog.

Fixpoint exec (fuel : nat) (c : prog) (s : state) : outcome :=
  match fuel with
  | 0 => OutOfFuel
  | S n =>
      let call := fun f s => exec n (body f) (record (Invoked f) s) in
      match c with
      | Ret => Normal s
      | Throw e => Thrown e s
      | Get (Proxy target) p k =>
          let '(v, s1) := handler_get target p s in
          exec n (k v) (record (Observed target p v) s1)
      | Put (Proxy target) p v k =>
          handler_set call n target p v s >>= exec n k
      | Effect callback k =>
          effect call callback s >>= exec n k
      | Push v k => exec n k (push_log v s)
      | Try b h k =>
          match exec n b s with
          | Normal s1 => exec n k s1
          | Thrown e s1 => exec n (h e) s1 >>= exec n k
          | OutOfFuel => OutOfFuel
          end
      end
  end.

(** Calling the function value [f] with the given fuel. *)
Definition invoke (fuel : nat) (f : fn) (s : state) : outcome :=
  exec fuel (body f) (record (Invoked f) s).
End Interpreter.

(** The state of a freshly loaded module, over the given objects. *)
Definition initial (h : gmap obj (gmap key value)) : state :=
  State h None ∅ [] [].

(* --------------------------------------------------------------------- *)
(*  Vocabulary of the statements                                         *)
(* --------------------------------------------------------------------- *)

(** [r ⊑ r']: with more fuel, a run that completed keeps its result. *)
Definition refines (r r' : outcome) : Prop := r = OutOfFuel ∨ r = r'.

Infix "⊑" := refines (at level 70).

(** The functions invoked along a stretch of history, in order. *)
Definition invocations (tr : list event) : list fn :=
  omap (λ e, match e with Invoked f => Some f | Observed _ _ _ => None end) tr.

(** How many times [C] was invoked along a stretch of history. *)
Definition times_invoked (C : fn) (tr : list event) : nat :=
  length (filter (λ f, f = C) (invocations tr)).

(** [reader K c]: the code [c] only reads through handles, and only the
    properties that [K] allows, and pushes to the client array; it does
    not write, register, throw or catch.  The two callbacks of main.js
    have this shape. *)
Inductive reader (K : obj → key → Prop) : prog → Prop :=
| reader_Ret : reader K Ret
| reader_Get target p k :
    K target p → (∀ v, reader K (k v)) → reader K (Get (Proxy target) p k)
| reader_Push v k : reader K k → reader K (Push v k).

Definition observer : prog → Prop := reader (λ _ _, True).

(** What a reader does to the state, by recursion on its code. *)
Fixpoint observe (c : prog) (s : state) : state :=
  match c with
  | Get (Proxy target) p k =>
      let '(v, s1) := handler_get target p s in
      observe (k v) (record (Observed target p v) s1)
  | Push v k => observe k (push_log v s)
  | _ => s
  end.

(** [reran s s' fs]: from [s] to [s'] exactly the functions [fs] were
    invoked, in that order; all they did was look at the objects (every
    observation shows the value held in [s]) and push to the client
    array: the objects, the slot and the dependency store are as before. *)
Definition reran (s s' : state) (fs : list fn) : Prop :=
  heap s' = heap s ∧ currentEffect s' = currentEffect s ∧
  targetMap s' = targetMap s ∧
  ∃ tr, trace s' = trace s ++ tr ∧ invocations tr = fs ∧
        Forall (λ e, (∃ f, e = Invoked f) ∨
                     ∃ t q, e = Observed t q (read t q s)) tr.

(** [registered K f s s']: from [s] to [s'] the function [f] was run once
    as the active computation and only looked at properties that [K]
    allows: the objects are as before, the slot is empty again, and each
    set of the store is as before or has gained [f]; the sets of the
    properties outside [K] are as before. *)
Definition registered (K : obj → key → Prop) (f : fn) (s s' : state) : Prop :=
  heap s' = heap s ∧ currentEffect s' = None ∧
  (∀ t q, computationsFor s' t q = computationsFor s t q ∨
          computationsFor s' t q = set_add f (computationsFor s t q)) ∧
  (∀ t q, ¬ K t q → computationsFor s' t q = computationsFor s t q) ∧
  ∃ tr, trace s' = trace s ++ tr ∧ invocations tr = [f].

(** What [effect(f)] does, by recursion on the code of [f], when [f] is
    a reader and the slot is empty: [f] becomes the active computation,
    is invoked, and the slot is emptied. *)
Definition registration (body : fn → prog) (f : fn) (s : state) : state :=
  set_currentEffect None
    (observe (body f) (record (Invoked f) (set_currentEffect (Some f) s))).

(** The state a completed call leaves behind. *)
Definition final (r : outcome) : option state :=
  match r with
  | Normal s => Some s
  | Thrown _ s => Some s
  | OutOfFuel => None
  end.

(** Code that never calls [effect]. *)
Inductive effect_free : prog → Prop :=
| effect_free_Ret : effect_free Ret
| effect_free_Throw e : effect_free (Throw e)
| effect_free_Get h p k : (∀ v, effect_free (k v)) → effect_free (Get h p k)
| effect_free_Put h p v k : effect_free k → effect_free (Put h p v k)
| effect_free_Push v k : effect_free k → effect_free (Push v k)
| effect_free_Try b h k :
    effect_free b → (∀ e, effect_free (h e)) → effect_free k →
    effect_free (Try b h k).

(** Top-level code that does not catch: reads, writes, registrations and
    pushes in sequence.  An error ends it. *)
Inductive plain : prog → Prop :=
| plain_Ret : plain Ret
| plain_Throw e : plain (Throw e)
| plain_Get h p k : (∀ v, plain (k v)) → plain (Get h p k)
| plain_Put h p v k : plain k → plain (Put h p v k)
| plain_Effect f k : plain k → plain (Effect f k)
| plain_Push v k : plain k → plain (Push v k).

(** Every set of the dependency store is duplicate free. *)
Definition dedup (s : state) : Prop :=
  ∀ target p, NoDup (computationsFor s target p).

(** [iterates call target p i s j s']: the iteration of [trigger] over the
    set of [(target, p)], standing at position [i] in state [s], gets to
    position [j] in state [s'], every member in between having returned. *)
Inductive iterates (call : fn → state → outcome) (target : obj) (p : key)
  : nat → state → nat → state → Prop :=
| iterates_here i s : iterates call target p i s i s
| iterates_next i s f s1 j s2 :
    computationsFor s target p !! i = Some f →
    call f s = Normal s1 →
    iterates call target p (S i) s1 j s2 →
    iterates call target p i s j s2.

(* --------------------------------------------------------------------- *)
(*  main.js and the scenarios                                            *)
(* --------------------------------------------------------------------- *)

Module Demo.
Open Scope string_scope.

(** [const obj = reactiveIt({ count: 0, show: false })] *)
Definition target : obj := 1.
Definition objects : gmap obj (gmap key value) :=
  {[ target := {[ "count" := VNum 0; "show" := VBool false ]} ]}.
Definition handle_obj : handle := reactiveIt target.

(** The functions of the programs below. *)
Definition show_count : fn := 0.
Definition toggle_image : fn := 1.
Definition failing : fn := 2.
Definition outer : fn := 3.
Definition inner : fn := 4.
Definition picky : fn := 5.
Definition show_count' : fn := 6.

Definition body (f : fn) : prog :=
  match f with
  | 0 =>
      (* () => { ptag.innerText = obj.count; }: the text written to the
         page is kept in the client array *)
      Get handle_obj "count" (λ v, Push v Ret)
  | 1 =>
      (* () => { if (obj.show === true) { ...append the image... }
                 if (obj.show === false) { ...remove the image... } } *)
      Get handle_obj "show" (λ v,
        let rest :=
          Get handle_obj "show" (λ w,
            if decide (w = VBool false) then Push (VStr "remove image") Ret
            else Ret) in
        if decide (v = VBool true) then Push (VStr "append image") rest
        else rest)
  | 2 =>
      (* () => { throw "boom"; } *)
      Throw (VStr "boom")
  | 3 =>
      (* () => { effect(inner); log.push(obj.count); } *)
      Effect 4 (Get handle_obj "count" (λ v, Push v Ret))
  | 4 =>
      (* () => { log.push("inner"); } *)
      Push (VStr "inner") Ret
  | 5 =>
      (* () => { if (obj.count !== 0) throw "boom"; } *)
      Get handle_obj "count" (λ v,
        if decide (v = VNum 0) then Ret else Throw (VStr "boom"))
  | 6 =>
      (* a second function with the code of show_count *)
      Get handle_obj "count" (λ v, Push v Ret)
  | _ => Ret
  end.

(** The two functions that main.js itself has. *)
Definition main_body (f : fn) : prog :=
  match f with
  | 0 | 1 => body f
  | _ => Ret
  end.

(** The state a program leaves when run on the freshly loaded module. *)
Definition after (fuel : nat) (c : prog) : state :=
  match final (exec body fuel c (initial objects)) with
  | Some s => s
  | None => initial objects
  end.

(** main.js up to its two registrations. *)
Definition main : prog := Effect show_count (Effect toggle_image Ret).

(** [h = wrap({count: 0}); log = [];
     registerComputation(() => log.push(h.count)); h.count = 1; h.count = 2] *)
Definition counter : gmap obj (gmap key value) :=
  {[ target := {[ "count" := VNum 0 ]} ]}.
Definition scenario : prog :=
  Effect show_count
    (Put handle_obj "count" (VNum 1) (Put handle_obj "count" (VNum 2) Ret)).

(** [try { effect(failing) } catch (e) {}; obj.count] *)
Definition after_failure : prog :=
  Try (Effect failing Ret) (λ _, Ret) (Get handle_obj "count" (λ _, Ret)).

(** [effect(show_count); effect(picky); effect(show_count')] *)
Definition three : prog :=
  Effect show_count (Effect picky (Effect show_count' Ret)).
End Demo.

(* --------------------------------------------------------------------- *)
(*  Further vocabulary, and the click handlers of main.js                *)
(* --------------------------------------------------------------------- *)

(** The (object, property) pairs read along a stretch of history. *)
Definition observed (tr : list event) : list (obj * key) :=
  omap (λ e, match e with
             | Observed target p _ => Some (target, p)
             | Invoked _ => None
             end) tr.

(** Code that never writes through a handle. *)
Inductive put_free : prog → Prop :=
| put_free_Ret : put_free Ret
| put_free_Throw e : put_free (Throw e)
| put_free_Get h p k : (∀ v, put_free (k v)) → put_free (Get h p k)
| put_free_Effect f k : put_free k → put_free (Effect f k)
| put_free_Push v k : put_free k → put_free (Push v k)
| put_free_Try b h k :
    put_free b → (∀ e, put_free (h e)) → put_free k → put_free (Try b h k).

(** JavaScript's ToBoolean on the values above. *)
Definition truthy (v : value) : bool :=
  match v with
  | VUndef => false
  | VNum n => negb (n =? 0)%Z
  | VBool b => b
  | VStr s => negb (String.eqb s "")
  end.

(** JavaScript's [!v]. *)
Definition js_not (v : value) : value := VBool (negb (truthy v)).

(** [h[p] = g(h[p])]: the get trap, then the set trap with the new
    value.  The three click handlers of main.js have this shape. *)
Definition update (h : handle) (p : key) (g : value → value) : prog :=
  Get h p (λ v, Put h p (g v) Ret).

Module Main.
(** [handleImage.addEventListener("click", () => { obj.show = !obj.show; })] *)
Definition toggle_click : prog := update Demo.handle_obj "show" js_not.

(** Three more functions a client may register, beside those of [Demo]. *)
Definition reset : fn := 7.
Definition mirror : fn := 8.
Definition show_shown : fn := 9.

(** A second wrapped object, [reactiveIt({ count: 7 })]. *)
Definition other : obj := 2.

Definition body (f : fn) : prog :=
  match f with
  | 10 =>
      (* () => { log.push(other.count); } *)
      Get (reactiveIt other) "count" (λ v, Push v Ret)
  | 7 =>
      (* () => { obj.count = 0; } *)
      Put Demo.handle_obj "count" (VNum 0) Ret
  | 8 =>
      (* () => { obj.shown = obj.count; } *)
      Get Demo.handle_obj "count" (λ w, Put Demo.handle_obj "shown" w Ret)
  | 9 =>
      (* () => { log.push(obj.shown); } *)
      Get Demo.handle_obj "shown" (λ v, Push v Ret)
  | _ => Demo.body f
  end.

(** The state a program over these functions leaves when run on the
    freshly loaded module. *)
Definition after (fuel : nat) (c : prog) : state :=
  match final (exec body fuel c (initial Demo.objects)) with
  | Some s => s
  | None => initial Demo.objects
  end.
End Main.

(** The property names that a plain object inherits from
    [Object.prototype] (ECMAScript, with its annex B).  For them a read
    or a write goes through the prototype, which [read] and [assign] do
    not describe; the statements that read a written value back are made
    for the other names. *)
Definition object_prototype_keys : list key :=
  [ "__proto__"; "constructor"; "hasOwnProperty"; "isPrototypeOf";
    "propertyIsEnumerable"; "toLocaleString"; "toString"; "valueOf";
    "__defineGetter__"; "__defineSetter__"; "__lookupGetter__";
    "__lookupSetter__" ].

Definition data_key (p : key) : Prop := p ∉ object_prototype_keys.

Module Corner.
(** Two computations that do more than look. *)
Definition bump : fn := 11.
Definition curious : fn := 12.

Definition body (f : fn) : prog :=
  match f with
  | 11 =>
      (* () => { if (obj.count === 1) obj.count = 2; } *)
      Get Demo.handle_obj "count" (λ v,
        if decide (v = VNum 1) then Put Demo.handle_obj "count" (VNum 2) Ret
        else Ret)
  | 12 =>
      (* () => { obj.count; try { effect(failing) } catch (e) {}; obj.show; } *)
      Get Demo.handle_obj "count" (λ _,
        Try (Effect Demo.failing Ret) (λ _, Ret)
          (Get Demo.handle_obj "show" (λ _, Ret)))
  | _ => Demo.body f
  end.

(** The state a program over these functions leaves when run on the
    freshly loaded module. *)
Definition after (fuel : nat) (c : prog) : state :=
  match final (exec body fuel c (initial Demo.objects)) with
  | Some s => s
  | None => initial Demo.objects
  end.
End Corner.

(* ===================================================================== *)
(*  Lemmas                                                               *)
(* ===================================================================== *)

(* --------------------------------------------------------------------- *)
(*  Fuel                                                                 *)
(* --------------------------------------------------------------------- *)

Lemma refines_refl r : r ⊑ r.
Proof. by right. Qed.

Lemma refines_bot r : OutOfFuel ⊑ r.
Proof. by left. Qed.

Lemma refines_done r r' : r ⊑ r' → r ≠ OutOfFuel → r' = r.
Proof. by intros [?|?] ?. Qed.

Lemma and_then_refines r r' k k' :
  r ⊑ r' → (∀ s, k s ⊑ k' s) → r >>= k ⊑ r' >>= k'.
Proof.
  intros [->| ->] Hk; [apply refines_bot|].
  destruct r' as [s|e s|]; simpl; [apply Hk|apply refines_refl..].
Qed.

Section LibraryFuel.
Variables call call' : fn → state → outcome.
Hypothesis call_refines : ∀ f s, call f s ⊑ call' f s.

Lemma effect_refines f s : effect call f s ⊑ effect call' f s.
Proof.
  unfold effect. apply and_then_refines; [|intros; apply refines_refl].
  destruct (currentEffect s); [apply refines_refl|apply call_refines].
Qed.

Lemma forEach_refines n m target p i s :
  n ≤ m → forEach call n target p i s ⊑ forEach call' m target p i s.
Proof.
  revert m i s. induction n as [|n IH]; intros m i s Hle.
  - simpl. destruct (computationsFor s target p !! i) as [f|] eqn:E.
    + apply refines_bot.
    + destruct m; simpl; rewrite E; apply refines_refl.
  - destruct m as [|m]; [lia|]. simpl.
    destruct (computationsFor s target p !! i) as [f|]; [|apply refines_refl].
    apply and_then_refines; [apply call_refines|].
    intros s1. apply IH. lia.
Qed.

Lemma trigger_refines n m target p s :
  n ≤ m → trigger call n target p s ⊑ trigger call' m target p s.
Proof.
  intros Hle. unfold trigger.
  destruct (targetMap s !! target) as [depsMap|]; [|apply refines_refl].
  destruct (depsMap !! p); [|apply refines_refl].
  by apply forEach_refines.
Qed.

Lemma handler_set_refines n m target p v s :
  n ≤ m → handler_set call n target p v s ⊑ handler_set call' m target p v s.
Proof. apply trigger_refines. Qed.
End LibraryFuel.

Section InterpreterFuel.
Variable body : fn → prog.

Lemma exec_refines n m c s : n ≤ m → exec body n c s ⊑ exec body m c s.
Proof.
  revert m c s. induction n as [|n IH]; intros m c s Hle; [apply refines_bot|].
  destruct m as [|m]; [lia|].
  assert (Hnm : n ≤ m) by lia.
  assert (Hcall : ∀ f s0, exec body n (body f) (record (Invoked f) s0)
                         ⊑ exec body m (body f) (record (Invoked f) s0))
    by (intros; by apply IH).
  destruct c as [|e|[target] p k|[target] p v k|f k|v k|b h k]; simpl.
  - apply refines_refl.
  - apply refines_refl.
  - by apply IH.
  - apply and_then_refines; [by apply handler_set_refines|intros; by apply IH].
  - apply and_then_refines; [by apply effect_refines|intros; by apply IH].
  - by apply IH.
  - destruct (IH m b s Hnm) as [->| ->]; [apply refines_bot|].
    destruct (exec body m b s) as [s1|e s1|]; [by apply IH| |apply refines_refl].
    apply and_then_refines; intros; by apply IH.
Qed.

Lemma invoke_refines n m f s : n ≤ m → invoke body n f s ⊑ invoke body m f s.
Proof. apply exec_refines. Qed.

(** A run that completed completes the same way with any larger fuel. *)
Lemma exec_more_fuel n m c s r :
  exec body n c s = r → r ≠ OutOfFuel → n ≤ m → exec body m c s = r.
Proof.
  intros <- Hr Hle. by apply refines_done; [apply exec_refines|].
Qed.

Lemma invoke_more_fuel n m f s r :
  invoke body n f s = r → r ≠ OutOfFuel → n ≤ m → invoke body m f s = r.
Proof. apply exec_more_fuel. Qed.
End InterpreterFuel.

(* --------------------------------------------------------------------- *)
(*  Reading the history                                                  *)
(* --------------------------------------------------------------------- *)

Lemma invocations_app tr1 tr2 :
  invocations (tr1 ++ tr2) = invocations tr1 ++ invocations tr2.
Proof. apply omap_app. Qed.

Lemma times_invoked_app C tr1 tr2 :
  times_invoked C (tr1 ++ tr2) = times_invoked C tr1 + times_invoked C tr2.
Proof.
  unfold times_invoked. by rewrite invocations_app, filter_app, length_app.
Qed.

Lemma filter_eq_absent (C : fn) (l : list fn) :
  C ∉ l → filter (λ f, f = C) l = [].
Proof.
  induction l as [|x l IH]; intros Hnot; [done|].
  apply not_elem_of_cons in Hnot as [Hne Hnot].
  rewrite filter_cons_False by congruence. by apply IH.
Qed.

Lemma filter_eq_once (C : fn) (l : list fn) :
  NoDup l → C ∈ l → length (filter (λ f, f = C) l) = 1.
Proof.
  induction 1 as [|x l Hx Hnd IH]; intros Hin; [by apply elem_of_nil in Hin|].
  destruct (decide (x = C)) as [->|Hne].
  - rewrite filter_cons_True by done. simpl. by rewrite filter_eq_absent.
  - rewrite filter_cons_False by done. apply IH.
    apply elem_of_cons in Hin as [?|?]; [congruence|done].
Qed.

(* --------------------------------------------------------------------- *)
(*  Computations that only look                                         *)
(* --------------------------------------------------------------------- *)

Lemma reader_observer K c : reader K c → observer c.
Proof. induction 1; constructor; auto. Qed.

Lemma heap_track target p s : heap (track target p s) = heap s.
Proof. unfold track. by destruct (currentEffect s). Qed.

Lemma currentEffect_track target p s :
  currentEffect (track target p s) = currentEffect s.
Proof. unfold track. by destruct (currentEffect s) eqn:E. Qed.

Lemma read_track target p t q s : read t q (track target p s) = read t q s.
Proof. unfold read. by rewrite heap_track. Qed.

(** [track] outside a registration does nothing. *)
Lemma track_idle target p s : currentEffect s = None → track target p s = s.
Proof. unfold track. by intros ->. Qed.

Ltac solve_data_key :=
  let H := fresh in
  unfold data_key, object_prototype_keys; intros H;
  repeat (apply elem_of_cons in H as [H|H]; [discriminate H|]);
  by apply elem_of_nil in H.

Ltac reader_induction H :=
  induction H as [|target p k HK Hk IH|v k Hk IH]; intros s; simpl.

Lemma heap_observe K c : reader K c → ∀ s, heap (observe c s) = heap s.
Proof.
  intros H. reader_induction H; [done| |by rewrite IH].
  rewrite IH. simpl. apply heap_track.
Qed.

Lemma currentEffect_observe K c :
  reader K c → ∀ s, currentEffect (observe c s) = currentEffect s.
Proof.
  intros H. reader_induction H; [done| |by rewrite IH].
  rewrite IH. simpl. apply currentEffect_track.
Qed.

Lemma targetMap_observe_idle K c :
  reader K c → ∀ s, currentEffect s = None → targetMap (observe c s) = targetMap s.
Proof.
  intros H. reader_induction H; intros Hidle; [done| |by rewrite IH].
  rewrite IH; simpl; by rewrite track_idle.
Qed.

(** The history a reader leaves: one observation per read, each of an
    allowed property and each showing the value the object holds. *)
Lemma trace_observe K c :
  reader K c → ∀ s, ∃ tr,
    trace (observe c s) = trace s ++ tr ∧
    Forall (λ e, ∃ t q, K t q ∧ e = Observed t q (read t q s)) tr.
Proof.
  intros H. reader_induction H.
  - exists []. by rewrite app_nil_r.
  - destruct (IH (read target p (track target p s))
                 (record (Observed target p (read target p (track target p s)))
                         (track target p s))) as (tr & Htr & Hall).
    exists (Observed target p (read target p s) :: tr). split.
    + rewrite Htr. simpl. rewrite read_track, <- app_assoc. f_equal.
      unfold track. by destruct (currentEffect s).
    + constructor; [by eauto|].
      eapply Forall_impl; [exact Hall|]. simpl.
      intros e (t & q & HKq & ->). exists t, q. split; [done|].
      f_equal. unfold read. simpl. by rewrite heap_track.
  - destruct (IH (push_log v s)) as (tr & Htr & Hall).
    exists tr. split; [by rewrite Htr|done].
Qed.

Lemma invocations_observations (P : obj → key → value → Prop) tr :
  Forall (λ e, ∃ t q v, e = Observed t q v ∧ P t q v) tr → invocations tr = [].
Proof.
  induction 1 as [|e tr (t & q & v & -> & _) _ IH]; [done|]. by simpl.
Qed.

Section Readers.
Variable body : fn → prog.

(** A reader always returns, and [observe] is what it does. *)
Lemma exec_observe K c :
  reader K c → ∀ s, ∃ n0, ∀ n, n0 ≤ n → exec body n c s = Normal (observe c s).
Proof.
  intros H. reader_induction H.
  - exists 1. intros [|n] ?; [lia|done].
  - destruct (IH (read target p (track target p s))
                 (record (Observed target p (read target p (track target p s)))
                         (track target p s))) as [n0 Hn0].
    exists (S n0). intros [|n] ?; [lia|]. simpl. apply Hn0. lia.
  - destruct (IH (push_log v s)) as [n0 Hn0].
    exists (S n0). intros [|n] ?; [lia|]. simpl. apply Hn0. lia.
Qed.
End Readers.

(* --------------------------------------------------------------------- *)
(*  trigger over readers                                                 *)
(* --------------------------------------------------------------------- *)

Lemma computationsFor_ext s s' target p :
  targetMap s' = targetMap s → computationsFor s' target p = computationsFor s target p.
Proof. unfold computationsFor. by intros ->. Qed.

Lemma read_ext s s' target p : heap s' = heap s → read target p s' = read target p s.
Proof. unfold read. by intros ->. Qed.

Section TriggerReaders.
Variable body : fn → prog.

(** Invoking a reader outside a registration. *)
Lemma invoke_observer f s :
  observer (body f) → currentEffect s = None →
  ∃ n0 s', (∀ n, n0 ≤ n → invoke body n f s = Normal s') ∧ reran s s' [f].
Proof.
  intros Hobs Hidle.
  destruct (exec_observe body _ _ Hobs (record (Invoked f) s)) as [n0 Hn0].
  destruct (trace_observe _ _ Hobs (record (Invoked f) s)) as (tr & Htr & Hall).
  exists n0, (observe (body f) (record (Invoked f) s)).
  split; [exact Hn0|]. repeat split.
  - by rewrite (heap_observe _ _ Hobs).
  - by rewrite (currentEffect_observe _ _ Hobs).
  - by rewrite (targetMap_observe_idle _ _ Hobs).
  - exists (Invoked f :: tr). split; [|split].
    + rewrite Htr. simpl. by rewrite <- app_assoc.
    + simpl. f_equal. apply (invocations_observations (λ _ _ _, True)).
      eapply Forall_impl; [exact Hall|]. intros e (t & q & _ & ->). eauto.
    + constructor; [left; eauto|].
      eapply Forall_impl; [exact Hall|]. intros e (t & q & _ & ->). right.
      exists t, q. done.
Qed.

(** The iteration of [trigger], from position [i] on, when every member
    of the set is a reader and no registration is in progress: it
    returns, having invoked the members from [i] on, once each. *)
Lemma forEach_observers target p k : ∀ i s,
  currentEffect s = None →
  (∀ C, C ∈ computationsFor s target p → observer (body C)) →
  length (computationsFor s target p) = i + k →
  ∃ n0 s', (∀ n, n0 ≤ n → forEach (invoke body n) n target p i s = Normal s') ∧
           reran s s' (drop i (computationsFor s target p)).
Proof.
  induction k as [|k IH]; intros i s Hidle Hobs Hlen.
  - exists 0, s. split.
    + intros n _.
      assert (computationsFor s target p !! i = None) as E
        by (apply lookup_ge_None; lia).
      destruct n; simpl; by rewrite E.
    + repeat split. exists []. rewrite app_nil_r, drop_ge by lia. by repeat split.
  - destruct (lookup_lt_is_Some_2 (computationsFor s target p) i) as [f Hf]; [lia|].
    destruct (invoke_observer f s) as (n1 & s1 & Hrun1 & Hh1 & Hc1 & Hm1 & tr1 & Ht1 & Hi1 & Ha1);
      [apply Hobs; by eapply list_elem_of_lookup_2|done|].
    assert (Hsame : computationsFor s1 target p = computationsFor s target p)
      by by apply computationsFor_ext.
    destruct (IH (S i) s1) as (n2 & s2 & Hrun2 & Hh2 & Hc2 & Hm2 & tr2 & Ht2 & Hi2 & Ha2).
    { congruence. }
    { rewrite Hsame. exact Hobs. }
    { rewrite Hsame. lia. }
    exists (S (n1 + n2)), s2. split.
    + intros [|n] Hn; [lia|]. simpl. rewrite Hf.
      rewrite (Hrun1 (S n)) by lia. simpl.
      apply refines_done; [|done].
      rewrite <- (Hrun2 n) by lia.
      apply forEach_refines; [|done].
      intros g s0. apply invoke_refines. lia.
    + repeat split; [congruence..|].
      exists (tr1 ++ tr2). split; [|split].
      * by rewrite Ht2, Ht1, <- app_assoc.
      * rewrite invocations_app, Hi1, Hi2, Hsame. simpl.
        symmetry. by apply drop_S.
      * apply Forall_app. split; [done|].
        eapply Forall_impl; [exact Ha2|]. intros e [?|(t & q & ->)]; [by left|].
        right. exists t, q. by rewrite (read_ext s s1).
Qed.

(** A write outside a registration, when every computation recorded for
    the written property is a reader. *)
Lemma handler_set_observers target p v s :
  currentEffect s = None →
  (∀ C, C ∈ computationsFor s target p → observer (body C)) →
  ∃ n0 s', (∀ n, n0 ≤ n →
              handler_set (invoke body n) n target p v s = Normal s') ∧
           reran (assign target p v s) s' (computationsFor s target p).
Proof.
  intros Hidle Hobs.
  set (s0 := assign target p v s).
  assert (Hsame : computationsFor s0 target p = computationsFor s target p) by done.
  destruct (forEach_observers target p (length (computationsFor s0 target p)) 0 s0)
    as (n0 & s' & Hrun & Hre); [done|by rewrite Hsame|done|].
  exists n0, s'. split; [|by rewrite <- Hsame].
  intros n Hn. unfold handler_set, trigger. fold s0.
  destruct (targetMap s0 !! target) as [depsMap|] eqn:E1.
  - destruct (depsMap !! p) as [deps|] eqn:E2; [by apply Hrun|].
    specialize (Hrun n Hn). destruct n; simpl in Hrun;
      unfold computationsFor in Hrun; by rewrite E1, E2 in Hrun.
  - specialize (Hrun n Hn). destruct n; simpl in Hrun;
      unfold computationsFor in Hrun; by rewrite E1 in Hrun.
Qed.
End TriggerReaders.

(* --------------------------------------------------------------------- *)
(*  The dependency store                                                 *)
(* --------------------------------------------------------------------- *)

Lemma set_add_elem c x l : x ∈ set_add c l ↔ x = c ∨ x ∈ l.
Proof.
  unfold set_add. destruct (decide (c ∈ l)) as [Hin|Hnot].
  - split; [by right|]. intros [->|?]; done.
  - rewrite elem_of_app, list_elem_of_singleton. tauto.
Qed.

Lemma set_add_present c l : c ∈ l → set_add c l = l.
Proof. unfold set_add. intros. by rewrite decide_True. Qed.

Lemma set_add_idem c l : set_add c (set_add c l) = set_add c l.
Proof. apply set_add_present, set_add_elem. by left. Qed.

Lemma set_add_NoDup c l : NoDup l → NoDup (set_add c l).
Proof.
  unfold set_add. intros Hnd. destruct (decide (c ∈ l)) as [Hin|Hnot]; [done|].
  apply NoDup_app. split; [done|]. split; [|apply NoDup_singleton].
  intros x Hx Hx'. apply list_elem_of_singleton in Hx'. by subst.
Qed.


Lemma computationsFor_track_same target p s c :
  currentEffect s = Some c →
  computationsFor (track target p s) target p = set_add c (computationsFor s target p).
Proof.
  intros Hc. unfold track, computationsFor. rewrite Hc. simpl.
  rewrite lookup_insert_eq, lookup_insert_eq.
  destruct (targetMap s !! target) as [depsMap|]; [|done].
  by destruct (depsMap !! p).
Qed.

Lemma computationsFor_track_other target p s t q :
  (t, q) ≠ (target, p) →
  computationsFor (track target p s) t q = computationsFor s t q.
Proof.
  intros Hne. unfold track. destruct (currentEffect s) as [c|]; [|done].
  unfold computationsFor. simpl.
  destruct (decide (t = target)) as [->|Ht].
  - rewrite lookup_insert_eq.
    assert (q ≠ p) as Hq by congruence.
    rewrite lookup_insert_ne by done.
    destruct (targetMap s !! target) as [depsMap|]; [done|].
    by rewrite lookup_empty.
  - by rewrite lookup_insert_ne.
Qed.


Lemma dedup_track target p s : dedup s → dedup (track target p s).
Proof.
  intros Hs t q. destruct (decide ((t, q) = (target, p))) as [[= -> ->]|Hne].
  - destruct (currentEffect s) as [c|] eqn:Hc.
    + rewrite (computationsFor_track_same _ _ _ c) by done. apply set_add_NoDup, Hs.
    + rewrite track_idle by done. apply Hs.
  - rewrite computationsFor_track_other by done. apply Hs.
Qed.

Lemma dedup_ext s s' : targetMap s' = targetMap s → dedup s → dedup s'.
Proof. intros E Hs t q. rewrite (computationsFor_ext s s') by done. apply Hs. Qed.

Lemma dedup_initial h : dedup (initial h).
Proof. intros t q. apply NoDup_nil_2. Qed.

Lemma read_assign target p v s : read target p (assign target p v s) = v.
Proof. unfold read, assign. simpl. by rewrite !lookup_insert_eq. Qed.

(* --------------------------------------------------------------------- *)
(*  Relations that every step preserves                                  *)
(* --------------------------------------------------------------------- *)

Lemma final_and_then r k s' :
  final (r >>= k) = Some s' →
  (∃ s1, r = Normal s1 ∧ final (k s1) = Some s') ∨ (∃ e, r = Thrown e s').
Proof.
  destruct r as [s1|e s1|]; simpl; [by eauto| |done].
  intros [= ->]. by eauto.
Qed.

Section LibraryPreserves.
Variable call : fn → state → outcome.
Variable R : state → state → Prop.
Hypothesis R_refl : ∀ s, R s s.
Hypothesis R_trans : ∀ s1 s2 s3, R s1 s2 → R s2 s3 → R s1 s3.
Hypothesis R_call : ∀ f s s', final (call f s) = Some s' → R s s'.

Lemma forEach_preserves fuel target p : ∀ i s s',
  final (forEach call fuel target p i s) = Some s' → R s s'.
Proof.
  induction fuel as [|fuel IH]; intros i s s'; simpl;
    destruct (computationsFor s target p !! i) as [f|];
    try (intros [= ->]; by apply R_refl); try done.
  intros [(s1 & Hcall & Hrest)|(e & Hcall)]%final_and_then.
  - apply (R_trans _ s1); [apply (R_call f); by rewrite Hcall|by eapply IH].
  - apply (R_call f). by rewrite Hcall.
Qed.

Lemma trigger_preserves fuel target p s s' :
  final (trigger call fuel target p s) = Some s' → R s s'.
Proof.
  unfold trigger. destruct (targetMap s !! target) as [depsMap|];
    [|intros [= ->]; by apply R_refl].
  destruct (depsMap !! p); [apply forEach_preserves|intros [= ->]; by apply R_refl].
Qed.
End LibraryPreserves.

Section Preserves.
Variable body : fn → prog.
Variable ok : prog → Prop.
Variable R : state → state → Prop.
Hypothesis ok_body : ∀ f, ok (body f).
Hypothesis ok_Get : ∀ h p k v, ok (Get h p k) → ok (k v).
Hypothesis ok_Put : ∀ h p v k, ok (Put h p v k) → ok k.
Hypothesis ok_Effect : ∀ f k, ok (Effect f k) → ok k.
Hypothesis ok_Push : ∀ v k, ok (Push v k) → ok k.
Hypothesis ok_Try : ∀ b h k, ok (Try b h k) → ok b ∧ (∀ e, ok (h e)) ∧ ok k.
Hypothesis R_refl : ∀ s, R s s.
Hypothesis R_trans : ∀ s1 s2 s3, R s1 s2 → R s2 s3 → R s1 s3.
Hypothesis R_track : ∀ target p s, R s (track target p s).
Hypothesis R_assign : ∀ target p v s, R s (assign target p v s).
Hypothesis R_push : ∀ v s, R s (push_log v s).
Hypothesis R_record : ∀ e s, R s (record e s).
Hypothesis R_slot : ∀ f k c s, ok (Effect f k) → R s (set_currentEffect c s).

(** Whatever code of the class [ok] does, it does by steps that [R]
    relates; so [R] relates the state before to the state after, however
    the run completes. *)
Lemma exec_preserves n : ∀ c s s',
  ok c → final (exec body n c s) = Some s' → R s s'.
Proof.
  induction n as [|n IH]; intros c s s' Hok; [done|].
  assert (Hcall : ∀ f s0 s1,
    final (exec body n (body f) (record (Invoked f) s0)) = Some s1 → R s0 s1).
  { intros f s0 s1 H. apply (R_trans _ (record (Invoked f) s0)); [apply R_record|].
    by apply (IH (body f)). }
  destruct c as [|e|[target] p k|[target] p v k|f k|v k|b h k]; simpl.
  - intros [= ->]. apply R_refl.
  - intros [= ->]. apply R_refl.
  - intros H. apply IH in H; [|by eapply ok_Get].
    eapply R_trans; [apply (R_track target p)|].
    eapply R_trans; [apply R_record|exact H].
  - intros [(s1 & Hset & Hrest)|(e & Hset)]%final_and_then.
    + apply (R_trans _ (assign target p v s)); [apply R_assign|].
      apply (R_trans _ s1); [|apply (IH k); [by eapply ok_Put|done]].
      apply (trigger_preserves _ R R_refl R_trans Hcall n target p).
      unfold handler_set in Hset. by rewrite Hset.
    + apply (R_trans _ (assign target p v s)); [apply R_assign|].
      apply (trigger_preserves _ R R_refl R_trans Hcall n target p).
      unfold handler_set in Hset. by rewrite Hset.
  - assert (Heff : ∀ s1, final (effect
        (λ f0 s0, exec body n (body f0) (record (Invoked f0) s0)) f s) = Some s1 →
        R s s1).
    { unfold effect. intros s1. destruct (currentEffect s) as [c|]; simpl.
      - intros [= <-]. by eapply R_slot.
      - intros [(s2 & Hc & Hclear)|(e & Hc)]%final_and_then.
        + simpl in Hclear. injection Hclear as <-.
          apply (R_trans _ (set_currentEffect (Some f) s)); [by eapply R_slot|].
          apply (R_trans _ s2); [|by eapply R_slot].
          apply (Hcall f). by rewrite Hc.
        + apply (R_trans _ (set_currentEffect (Some f) s)); [by eapply R_slot|].
          apply (Hcall f). by rewrite Hc. }
    intros [(s1 & He & Hrest)|(e & He)]%final_and_then.
    + apply (R_trans _ s1); [apply Heff; by rewrite He|].
      apply (IH k); [by eapply ok_Effect|done].
    + apply Heff. by rewrite He.
  - intros H. apply IH in H; [|by eapply ok_Push].
    eapply R_trans; [apply R_push|exact H].
  - destruct (ok_Try _ _ _ Hok) as (Hb & Hh & Hk).
    destruct (exec body n b s) as [s1|e s1|] eqn:Eb; [| |done].
    + intros H. apply (R_trans _ s1); [apply (IH b); [done|by rewrite Eb]|].
      by apply (IH k).
    + intros [(s2 & Hc & Hrest)|(e' & Hc)]%final_and_then.
      * apply (R_trans _ s1); [apply (IH b); [done|by rewrite Eb]|].
        apply (R_trans _ s2); [apply (IH (h e)); [done|by rewrite Hc]|].
        by apply (IH k).
      * apply (R_trans _ s1); [apply (IH b); [done|by rewrite Eb]|].
        apply (IH (h e)); [done|by rewrite Hc].
Qed.
End Preserves.

Lemma exec_dedup body n c s s' :
  dedup s → final (exec body n c s) = Some s' → dedup s'.
Proof.
  intros Hs Hrun. revert Hs.
  apply (exec_preserves body (λ _, True) (λ s s', dedup s → dedup s'))
    with (n := n) (c := c); try done.
  - auto.
  - intros. by apply dedup_track.
Qed.

(* --------------------------------------------------------------------- *)
(*  Code that does not register                                          *)
(* --------------------------------------------------------------------- *)

Lemma effect_free_idle body n c s s' :
  (∀ f, effect_free (body f)) → effect_free c →
  final (exec body n c s) = Some s' →
  currentEffect s = None →
  currentEffect s' = None ∧ targetMap s' = targetMap s.
Proof.
  intros Hbody Hc.
  apply (exec_preserves body effect_free
           (λ s s', currentEffect s = None →
                    currentEffect s' = None ∧ targetMap s' = targetMap s));
    try done.
  - intros ???? H. by inversion H.
  - intros ???? H. by inversion H.
  - intros ?? H. by inversion H.
  - intros ?? H. by inversion H.
  - intros ??? H. by inversion H.
  - intros s1 s2 s3 H12 H23 H1. destruct (H12 H1) as [H2 E2].
    destruct (H23 H2) as [H3 E3]. split; congruence.
  - intros ??? H. by rewrite track_idle.
  - intros ???? H. by inversion H.
Qed.

(** A write made with the slot empty, in a program whose functions do
    not call [effect]. *)
Lemma handler_set_idle body n target p v s s' :
  (∀ f, effect_free (body f)) → currentEffect s = None →
  final (handler_set (invoke body n) n target p v s) = Some s' →
  currentEffect s' = None ∧ targetMap s' = targetMap s.
Proof.
  intros Hfree Hidle Hrun.
  set (R := λ s1 s2 : state, currentEffect s1 = None →
              currentEffect s2 = None ∧ targetMap s2 = targetMap s1).
  assert (Hrefl : ∀ s1, R s1 s1) by done.
  assert (Htrans : ∀ s1 s2 s3, R s1 s2 → R s2 s3 → R s1 s3).
  { intros s1 s2 s3 H12 H23 H1. destruct (H12 H1) as [H2 E2].
    destruct (H23 H2) as [H3 E3]. split; congruence. }
  assert (Hcall : ∀ f s0 s1, final (invoke body n f s0) = Some s1 → R s0 s1).
  { intros f s0 s1 Hf H0.
    by apply (effect_free_idle body n (body f) (record (Invoked f) s0) s1). }
  by apply (trigger_preserves (invoke body n) R Hrefl Htrans Hcall
              n target p (assign target p v s) s').
Qed.

(** When top-level code that does not catch has returned, the slot is
    empty again. *)
Lemma plain_idle body n : ∀ c s s',
  (∀ f, effect_free (body f)) → plain c → currentEffect s = None →
  exec body n c s = Normal s' → currentEffect s' = None.
Proof.
  induction n as [|n IH]; intros c s s' Hfree Hc Hidle; [done|].
  destruct Hc as [|e|[target] p k Hk|[target] p v k Hk|f k Hk|v k Hk]; simpl.
  - by intros [= <-].
  - done.
  - apply IH; [done|apply Hk|]. simpl. by rewrite currentEffect_track.
  - change (λ f s0, exec body n (body f) (record (Invoked f) s0))
      with (invoke body n).
    destruct (handler_set (invoke body n) n target p v s) as [s1|e s1|] eqn:E;
      simpl; [|done..].
    apply IH; [done..|].
    by apply (handler_set_idle body n target p v s s1); [| |rewrite E].
  - destruct (effect _ f s) as [s1|e s1|] eqn:E; simpl; [|done..].
    apply IH; [done..|]. unfold effect in E.
    destruct (currentEffect s); [done|].
    destruct (exec body n (body f) _); simpl in E; [|done..].
    by injection E as <-.
  - by apply IH.
Qed.

(* --------------------------------------------------------------------- *)
(*  Failure inside trigger                                               *)
(* --------------------------------------------------------------------- *)

(** [trigger] is the iteration from position 0: its two guards only
    return early where the iteration would find nothing. *)
Lemma trigger_forEach call fuel target p s :
  trigger call fuel target p s = forEach call fuel target p 0 s.
Proof.
  unfold trigger.
  destruct (targetMap s !! target) as [depsMap|] eqn:E1.
  - destruct (depsMap !! p) as [deps|] eqn:E2; [done|].
    destruct fuel; simpl; unfold computationsFor; by rewrite E1, E2.
  - destruct fuel; simpl; unfold computationsFor; by rewrite E1.
Qed.

Lemma iterates_call_ext call call' target p i s j s' :
  (∀ f s0 s1, call f s0 = Normal s1 → call' f s0 = Normal s1) →
  iterates call target p i s j s' → iterates call' target p i s j s'.
Proof.
  intros Hext. induction 1 as [|i s f s1 j s2 Hf Hcall _ IH];
    [apply iterates_here|].
  eapply iterates_next; [exact Hf|by apply Hext|exact IH].
Qed.

Lemma forEach_iterates call target p i s j sj :
  iterates call target p i s j sj →
  i ≤ j ∧ ∀ fuel, forEach call ((j - i) + fuel) target p i s
                  = forEach call fuel target p j sj.
Proof.
  induction 1 as [i s|i s f s1 j s2 Hf Hcall _ [Hle IH]].
  - split; [done|]. intros fuel. by replace (i - i) with 0 by lia.
  - split; [lia|]. intros fuel.
    replace (j - i) with (S (j - S i)) by lia. simpl.
    rewrite Hf, Hcall. apply IH.
Qed.

(* --------------------------------------------------------------------- *)
(*  Registration of readers                                              *)
(* --------------------------------------------------------------------- *)

Lemma computationsFor_observe K c :
  reader K c → ∀ s f t q, currentEffect s = Some f →
  computationsFor (observe c s) t q = computationsFor s t q ∨
  computationsFor (observe c s) t q = set_add f (computationsFor s t q).
Proof.
  intros H. reader_induction H; intros f t q Hc; [by left| |].
  2: { by destruct (IH (push_log v s) f t q Hc) as [E|E]; [left|right]. }
  set (w := read target p (track target p s)).
  set (s1 := record _ (track target p s)).
  assert (Hc1 : currentEffect s1 = Some f)
    by (unfold s1; simpl; by rewrite currentEffect_track).
  assert (H1 : computationsFor s1 t q = computationsFor (track target p s) t q) by done.
  destruct (decide ((t, q) = (target, p))) as [[= -> ->]|Hne].
  - rewrite (computationsFor_track_same _ _ _ f) in H1 by done. right.
    destruct (IH w s1 f target p Hc1) as [-> | ->]; rewrite H1; [done|].
    apply set_add_idem.
  - rewrite computationsFor_track_other in H1 by done.
    destruct (IH w s1 f t q Hc1) as [-> | ->]; rewrite H1; [by left|by right].
Qed.

Lemma computationsFor_observe_other K c :
  reader K c → ∀ s t q, ¬ K t q →
  computationsFor (observe c s) t q = computationsFor s t q.
Proof.
  intros H. reader_induction H; intros t q Hout; [done| |by rewrite IH].
  rewrite IH by done.
  change (computationsFor (track target p s) t q = computationsFor s t q).
  apply computationsFor_track_other. intros [= -> ->]. by apply Hout.
Qed.

(** Registering a reader with [effect] while the slot is empty. *)
Lemma effect_reader body K f s :
  reader K (body f) → currentEffect s = None →
  ∃ n0, ∀ n, n0 ≤ n → effect (invoke body n) f s = Normal (registration body f s).
Proof.
  intros Hread Hidle.
  destruct (exec_observe body _ _ Hread
              (record (Invoked f) (set_currentEffect (Some f) s))) as [n0 Hn0].
  exists n0. intros n Hn. unfold effect, invoke, registration. rewrite Hidle.
  by rewrite Hn0.
Qed.

Lemma registered_registration body K f s :
  reader K (body f) → registered K f s (registration body f s).
Proof.
  intros Hread. unfold registration.
  set (s0 := record (Invoked f) (set_currentEffect (Some f) s)).
  destruct (trace_observe _ _ Hread s0) as (tr & Htr & Hall).
  split; [|split; [|split; [|split]]]; simpl.
  - by rewrite (heap_observe _ _ Hread).
  - done.
  - intros t q.
    by destruct (computationsFor_observe _ _ Hread s0 f t q eq_refl) as [E|E];
      [left|right].
  - intros t q Hout. by apply (computationsFor_observe_other _ _ Hread s0).
  - exists (Invoked f :: tr). split.
    + rewrite Htr. simpl. by rewrite <- app_assoc.
    + simpl. f_equal. apply (invocations_observations (λ _ _ _, True)).
      eapply Forall_impl; [exact Hall|]. intros e (t & q & _ & ->). eauto.
Qed.

(* ===================================================================== *)
(*  The claims                                                           *)
(* ===================================================================== *)

(** C1, as the code has it.  A write through the handle is the
    assignment followed by [trigger] on the state that already holds the
    new value.  For a property name that [Object.prototype] does not
    define, a write made while no computation is active, and recorded
    computations that are readers (they look at objects and push to the
    client array, as the callbacks of main.js do; they do not write,
    register or throw): the write returns, within it every recorded
    computation is invoked exactly once and no other function is, and
    every reading of [p] on [target] made during the write shows the
    value just written.  (The set is duplicate free in every state a
    program can reach: [dedup_initial], [exec_dedup].) *)
Theorem write_assigns_then_reruns_each_once body target p v s :
  data_key p →
  currentEffect s = None →
  NoDup (computationsFor s target p) →
  (∀ C, C ∈ computationsFor s target p → observer (body C)) →
  (∀ call n, handler_set call n target p v s
             = trigger call n target p (assign target p v s)) ∧
  ∃ n0 s' tr,
    (∀ n, n0 ≤ n →
       exec body n (Put (reactiveIt target) p v Ret) s = Normal s') ∧
    read target p s' = v ∧
    trace s' = trace s ++ tr ∧
    (∀ C, C ∈ computationsFor s target p → times_invoked C tr = 1) ∧
    (∀ C, C ∉ computationsFor s target p → times_invoked C tr = 0) ∧
    (∀ w, Observed target p w ∈ tr → w = v).
Proof.
  intros _ Hidle Hnd Hobs. split; [done|].
  destruct (handler_set_observers body target p v s Hidle Hobs)
    as (n0 & s' & Hrun & Hheap & _ & _ & tr & Htr & Hinv & Hall).
  exists (S (S n0)), s', tr. repeat split.
  - intros [|n] Hn; [lia|]. simpl.
    change (λ f s0, exec body n (body f) (record (Invoked f) s0)) with (invoke body n).
    rewrite Hrun by lia. simpl. destruct n; [lia|done].
  - rewrite (read_ext _ s') by done. apply read_assign.
  - done.
  - intros C HC. unfold times_invoked. rewrite Hinv. by apply filter_eq_once.
  - intros C HC. unfold times_invoked. rewrite Hinv. by rewrite filter_eq_absent.
  - intros w Hw. rewrite Forall_forall in Hall.
    destruct (Hall _ Hw) as [[f [=]]|(t & q & [= -> -> ->])].
    apply read_assign.
Qed.

Lemma write_assigns_then_reruns_each_once_witness :
  let s := Demo.after 10 Demo.main in
  data_key "count" ∧
  currentEffect s = None ∧
  NoDup (computationsFor s Demo.target "count") ∧
  computationsFor s Demo.target "count" = [Demo.show_count] ∧
  ∃ n0 s' tr,
    (∀ n, n0 ≤ n →
       exec Demo.body n (Put Demo.handle_obj "count" (VNum 5) Ret) s = Normal s') ∧
    read Demo.target "count" s' = VNum 5 ∧
    trace s' = trace s ++ tr ∧
    times_invoked Demo.show_count tr = 1 ∧
    times_invoked Demo.toggle_image tr = 0.
Proof.
  intros s.
  assert (Hkey : data_key "count") by solve_data_key.
  assert (Hnd : NoDup (computationsFor s Demo.target "count"))
    by (vm_compute; apply NoDup_singleton).
  split; [exact Hkey|]. split; [reflexivity|]. split; [exact Hnd|].
  split; [reflexivity|].
  destruct (write_assigns_then_reruns_each_once
              Demo.body Demo.target "count" (VNum 5) s)
    as (_ & n0 & s' & tr & Hrun & Hread & Htr & Honce & Hnone & _).
  - exact Hkey.
  - reflexivity.
  - exact Hnd.
  - intros C HC. vm_compute in HC. apply list_elem_of_singleton in HC as ->.
    repeat constructor.
  - exists n0, s', tr. repeat split; [done..| |].
    + apply Honce. vm_compute. apply list_elem_of_singleton. reflexivity.
    + apply Hnone. vm_compute. intros H. by apply list_elem_of_singleton in H.
Defined.

(** C1 as stated fails.  A recorded computation that throws keeps the
    ones after it from running: with [show_count], [picky] and
    [show_count'] recorded for [count], the write of 1 throws and
    [show_count'] was not invoked by it.  And a recorded computation that
    writes the property makes the others run more than once and see the
    later value: with [bump] and [show_count] recorded, the write of 1
    returns having invoked [show_count] twice, and both times it saw 2;
    the property holds 2, not the value written. *)
Lemma write_does_not_always_rerun_each_once :
  (let s := Demo.after 8 Demo.three in
   currentEffect s = None ∧
   computationsFor s Demo.target "count"
   = [Demo.show_count; Demo.picky; Demo.show_count'] ∧
   ∃ s', exec Demo.body 10 (Put Demo.handle_obj "count" (VNum 1) Ret) s
         = Thrown (VStr "boom") s' ∧
         times_invoked Demo.show_count' (drop (length (trace s)) (trace s')) = 0) ∧
  (let s := Corner.after 10 (Effect Corner.bump (Effect Demo.show_count Ret)) in
   currentEffect s = None ∧
   computationsFor s Demo.target "count" = [Corner.bump; Demo.show_count] ∧
   ∃ s', exec Corner.body 20 (Put Demo.handle_obj "count" (VNum 1) Ret) s
         = Normal s' ∧
         times_invoked Demo.show_count (drop (length (trace s)) (trace s')) = 2 ∧
         log s' = log s ++ [VNum 2; VNum 2] ∧
         read Demo.target "count" s' = VNum 2).
Proof.
  split.
  - split; [reflexivity|]. split; [reflexivity|].
    eexists. split; [vm_compute; reflexivity|]. vm_compute. reflexivity.
  - split; [reflexivity|]. split; [reflexivity|].
    eexists. split; [vm_compute; reflexivity|].
    repeat split; vm_compute; reflexivity.
Qed.

(** C2, as the code has it.  [effect] has no try/finally.  When the call
    returns, the slot is empty, whatever it held before.  When the
    callback throws, the error leaves [effect] at once: the state is the
    one the callback left, and the assignment that empties the slot is
    not run. *)
Theorem effect_clears_slot_when_it_returns call callback s :
  (∀ s', effect call callback s = Normal s' → currentEffect s' = None) ∧
  (∀ e s', currentEffect s = None →
           call callback (set_currentEffect (Some callback) s) = Thrown e s' →
           effect call callback s = Thrown e s').
Proof.
  unfold effect. split.
  - intros s'. destruct (currentEffect s) as [c|]; simpl.
    + by intros [= <-].
    + destruct (call callback _) as [s1|e s1|]; simpl; [|done..].
      by intros [= <-].
  - intros e s' -> ->. done.
Qed.

Lemma effect_clears_slot_when_it_returns_witness :
  (∃ s', effect (invoke Demo.body 5) Demo.show_count (initial Demo.objects)
         = Normal s' ∧
         currentEffect s' = None) ∧
  effect (invoke Demo.body 5) Demo.failing (initial Demo.objects)
  = Thrown (VStr "boom")
      (record (Invoked Demo.failing)
         (set_currentEffect (Some Demo.failing) (initial Demo.objects))).
Proof.
  split.
  - eexists. split; [vm_compute; reflexivity|].
    eapply (proj1 (effect_clears_slot_when_it_returns
              (invoke Demo.body 5) Demo.show_count (initial Demo.objects))).
    vm_compute. reflexivity.
  - apply (proj2 (effect_clears_slot_when_it_returns
              (invoke Demo.body 5) Demo.failing (initial Demo.objects)));
      reflexivity.
Defined.

(** C2 as stated fails: a callback that throws leaves the slot pointing
    at itself, and a later read made outside any registration is recorded
    against it. *)
Lemma effect_keeps_slot_when_callback_throws :
  effect (invoke Demo.body 5) Demo.failing (initial Demo.objects)
  = Thrown (VStr "boom")
      (record (Invoked Demo.failing)
         (set_currentEffect (Some Demo.failing) (initial Demo.objects))) ∧
  currentEffect (Demo.after 10 (Try (Effect Demo.failing Ret) (λ _, Ret) Ret))
  = Some Demo.failing ∧
  computationsFor (Demo.after 10 Demo.after_failure) Demo.target "count"
  = [Demo.failing].
Proof. repeat split; vm_compute; reflexivity. Qed.

(** C3, as the code has it.  Calling [effect] while a computation is
    active raises nothing, does not invoke the callback and leaves the
    objects, the dependency store and the client array as they are; but
    the assignment that ends [effect] is outside the guard, so the slot
    is emptied. *)
Theorem effect_while_active_only_clears_slot call callback s c :
  currentEffect s = Some c →
  effect call callback s = Normal (set_currentEffect None s) ∧
  heap (set_currentEffect None s) = heap s ∧
  targetMap (set_currentEffect None s) = targetMap s ∧
  log (set_currentEffect None s) = log s ∧
  trace (set_currentEffect None s) = trace s ∧
  currentEffect (set_currentEffect None s) = None.
Proof. unfold effect. by intros ->. Qed.

Lemma effect_while_active_only_clears_slot_witness :
  let s := set_currentEffect (Some Demo.outer) (initial Demo.objects) in
  currentEffect s = Some Demo.outer ∧
  effect (invoke Demo.body 5) Demo.inner s = Normal (set_currentEffect None s).
Proof.
  intros s. split; [reflexivity|].
  apply (effect_while_active_only_clears_slot
           (invoke Demo.body 5) Demo.inner s Demo.outer).
  reflexivity.
Defined.

(** C3 as stated fails: after the nested call the slot no longer holds
    the outer computation, and what the outer computation reads from
    then on is not recorded. *)
Lemma effect_while_active_drops_outer :
  let s := record (Invoked Demo.outer)
             (set_currentEffect (Some Demo.outer) (initial Demo.objects)) in
  currentEffect s = Some Demo.outer ∧
  (∃ s', effect (invoke Demo.body 5) Demo.inner s = Normal s' ∧
         currentEffect s' ≠ Some Demo.outer ∧ s' ≠ s) ∧
  log (Demo.after 10 (Effect Demo.outer Ret)) = [VNum 0] ∧
  computationsFor (Demo.after 10 (Effect Demo.outer Ret)) Demo.target "count" = [].
Proof.
  intros s. split; [reflexivity|]. split; [|split; vm_compute; reflexivity].
  eexists. split; [vm_compute; reflexivity|]. split; [done|].
  intros E. by apply (f_equal currentEffect) in E.
Qed.

(** C4, as the code has it.  The call of the callback is inside the
    guard.  While a computation is active, [effect(callback); k] is [k]
    run with the slot emptied: the callback is not invoked.  It is with
    an empty slot that the callback is invoked, once, with the slot
    pointing at it. *)
Theorem effect_invokes_only_when_idle body n callback k s :
  (∀ c, currentEffect s = Some c →
        exec body (S n) (Effect callback k) s
        = exec body n k (set_currentEffect None s)) ∧
  (currentEffect s = None →
   exec body (S n) (Effect callback k) s
   = invoke body n callback (set_currentEffect (Some callback) s)
     >>= λ s', exec body n k (set_currentEffect None s')).
Proof.
  split.
  - intros c Hc. simpl. unfold effect. by rewrite Hc.
  - intros Hc. simpl. unfold effect, invoke. rewrite Hc.
    by destruct (exec body n (body callback) _).
Qed.

Lemma effect_invokes_only_when_idle_witness :
  let s := record (Invoked Demo.outer)
             (set_currentEffect (Some Demo.outer) (initial Demo.objects)) in
  currentEffect s = Some Demo.outer ∧
  exec Demo.body 5 (Effect Demo.inner Ret) s = Normal (set_currentEffect None s) ∧
  exec Demo.body 5 (Effect Demo.inner Ret) (initial Demo.objects)
  = Normal (State Demo.objects None ∅ [VStr "inner"] [Invoked Demo.inner]).
Proof.
  intros s. split; [reflexivity|]. split.
  - rewrite (proj1 (effect_invokes_only_when_idle Demo.body 4 Demo.inner Ret s)
               Demo.outer); reflexivity.
  - rewrite (proj2 (effect_invokes_only_when_idle
                      Demo.body 4 Demo.inner Ret (initial Demo.objects)));
      reflexivity.
Defined.

(** C4 as stated fails: registering [outer], whose code calls
    [effect(inner)], never runs [inner]. *)
Lemma nested_callback_is_not_invoked :
  ∃ s', exec Demo.body 10 (Effect Demo.outer Ret) (initial Demo.objects)
        = Normal s' ∧
        times_invoked Demo.inner (trace s') = 0 ∧
        times_invoked Demo.outer (trace s') = 1 ∧
        log s' = [VNum 0].
Proof. eexists. repeat split; vm_compute; reflexivity. Qed.



(** C6.  Dependencies are kept per property.  Let [fc] be a reader of
    [p] only and [fs] a reader of [q] only, on the same object, with
    [p ≠ q] (count and show), [fc] not yet recorded under [q].  After
    registering [fc] and then [fs], a write to [q] returns having invoked
    exactly the computations recorded for [q], once each: [fc] is not
    invoked, and [fs] is if it was recorded. *)
Theorem write_invokes_only_its_property body target p q fc fs v s :
  p ≠ q →
  fc ≠ fs →
  currentEffect s = None →
  reader (λ t r, t = target ∧ r = p) (body fc) →
  reader (λ t r, t = target ∧ r = q) (body fs) →
  fc ∉ computationsFor s target q →
  NoDup (computationsFor s target q) →
  (∀ C, C ∈ computationsFor s target q → observer (body C)) →
  let s1 := registration body fc s in
  let s2 := registration body fs s1 in
  ∃ n0 s3 tr,
    (∀ n, n0 ≤ n →
       effect (invoke body n) fc s = Normal s1 ∧
       effect (invoke body n) fs s1 = Normal s2 ∧
       handler_set (invoke body n) n target q v s2 = Normal s3) ∧
    trace s3 = trace s2 ++ tr ∧
    invocations tr = computationsFor s2 target q ∧
    times_invoked fc tr = 0 ∧
    (fs ∈ computationsFor s2 target q → times_invoked fs tr = 1).
Proof.
  intros Hpq Hne Hidle Hfc Hfs Hnot Hnd Hobs s1 s2.
  destruct (registered_registration body _ fc s Hfc) as (_ & Hc1 & _ & Hout1 & _).
  destruct (registered_registration body _ fs s1 Hfs) as (_ & Hc2 & Hst2 & _).
  fold s1 in Hc1, Hout1. fold s2 in Hc2, Hst2.
  assert (H1 : computationsFor s1 target q = computationsFor s target q)
    by (apply Hout1; intros [_ ?]; congruence).
  assert (Hnot2 : fc ∉ computationsFor s2 target q).
  { destruct (Hst2 target q) as [-> | ->]; rewrite H1; [done|].
    rewrite set_add_elem. intros [?|?]; done. }
  assert (Hnd2 : NoDup (computationsFor s2 target q)).
  { destruct (Hst2 target q) as [-> | ->]; rewrite H1;
      [done|by apply set_add_NoDup]. }
  assert (Hobs2 : ∀ C, C ∈ computationsFor s2 target q → observer (body C)).
  { intros C. destruct (Hst2 target q) as [-> | ->]; rewrite H1; [apply Hobs|].
    rewrite set_add_elem. intros [->|?]; [by eapply reader_observer|by apply Hobs]. }
  destruct (effect_reader body _ fc s Hfc Hidle) as [n1 Hn1].
  destruct (effect_reader body _ fs s1 Hfs Hc1) as [n2 Hn2].
  destruct (handler_set_observers body target q v s2 Hc2 Hobs2)
    as (n3 & s3 & Hrun & _ & _ & _ & tr & Htr & Hinv & _).
  exists (n1 + n2 + n3), s3, tr. split; [|split; [done|split; [done|split]]].
  - intros n Hn. split; [apply Hn1; lia|]. split; [apply Hn2; lia|apply Hrun; lia].
  - unfold times_invoked. rewrite Hinv. by rewrite filter_eq_absent.
  - intros Hin. unfold times_invoked. rewrite Hinv. by apply filter_eq_once.
Qed.

Lemma write_invokes_only_its_property_witness :
  let s := initial Demo.objects in
  let s2 := registration Demo.body Demo.toggle_image
              (registration Demo.body Demo.show_count s) in
  currentEffect s = None ∧
  computationsFor s Demo.target "show" = [] ∧
  ∃ n0 s3 tr,
    (∀ n, n0 ≤ n →
       handler_set (invoke Demo.body n) n Demo.target "show" (VBool true) s2
       = Normal s3) ∧
    trace s3 = trace s2 ++ tr ∧
    times_invoked Demo.show_count tr = 0 ∧
    times_invoked Demo.toggle_image tr = 1.
Proof.
  intros s s2. split; [reflexivity|]. split; [reflexivity|].
  destruct (write_invokes_only_its_property
              Demo.body Demo.target "count" "show"
              Demo.show_count Demo.toggle_image (VBool true) s)
    as (n0 & s3 & tr & Hrun & Htr & _ & Hcount & Hshow).
  - discriminate.
  - discriminate.
  - reflexivity.
  - simpl. repeat (constructor || intros).
  - simpl. repeat (constructor || intros || case_decide).
  - vm_compute. apply not_elem_of_nil.
  - vm_compute. apply NoDup_nil_2.
  - intros C HC. vm_compute in HC. by apply elem_of_nil in HC.
  - exists n0, s3, tr. split; [intros n Hn; by apply Hrun|].
    split; [exact Htr|]. split; [exact Hcount|].
    apply Hshow. vm_compute. apply list_elem_of_singleton. reflexivity.
Defined.

(** C7.  [trigger] on a pair for which nothing is recorded (the target
    is not a key of the store, or the property is not a key of its map)
    invokes nothing and returns the very state it was given; so a write
    to such a property is the assignment alone, and the dependency store
    after it is the store before it. *)
Theorem trigger_lookup_creates_nothing call fuel target p s :
  computationsFor s target p = [] →
  trigger call fuel target p s = Normal s ∧
  ∀ v, handler_set call fuel target p v s = Normal (assign target p v s) ∧
       targetMap (assign target p v s) = targetMap s ∧
       trace (assign target p v s) = trace s.
Proof.
  intros Hnone.
  assert (Htrig : ∀ s0, computationsFor s0 target p = [] →
                        trigger call fuel target p s0 = Normal s0).
  { intros s0 H0. unfold trigger.
    destruct (targetMap s0 !! target) as [depsMap|] eqn:E1; [|done].
    destruct (depsMap !! p) as [deps|] eqn:E2; [|done].
    destruct fuel; simpl; by rewrite H0. }
  split; [by apply Htrig|]. intros v. split; [|done].
  unfold handler_set. by apply Htrig.
Qed.

Lemma trigger_lookup_creates_nothing_witness :
  let s := Demo.after 10 (Effect Demo.show_count Ret) in
  computationsFor s Demo.target "show" = [] ∧
  trigger (invoke Demo.body 5) 5 Demo.target "show" s = Normal s.
Proof.
  intros s. split; [reflexivity|].
  apply (trigger_lookup_creates_nothing (invoke Demo.body 5) 5 Demo.target "show" s).
  reflexivity.
Defined.

(** C8.  Let the iteration of a write's [trigger] have come to position
    [j], the members before it having returned, and let the member [f] at
    [j] throw [e], leaving state [s'].  Then the write throws [e] with
    state [s']: nothing catches the error, and since [s'] is the state
    the failing computation left, nothing ran after it: neither the
    members after position [j] nor the code that follows the write. *)
Theorem failing_computation_stops_the_write
  body n target p v k s j sj f e s' :
  iterates (invoke body n) target p 0 (assign target p v s) j sj →
  computationsFor sj target p !! j = Some f →
  invoke body n f sj = Thrown e s' →
  ∀ m, n + j < m →
    handler_set (invoke body m) m target p v s = Thrown e s' ∧
    exec body (S m) (Put (reactiveIt target) p v k) s = Thrown e s'.
Proof.
  intros Hit Hf Hthrow m Hm.
  assert (Hset : handler_set (invoke body m) m target p v s = Thrown e s').
  { unfold handler_set. rewrite trigger_forEach.
    apply (iterates_call_ext _ (invoke body m)) in Hit.
    - destruct (forEach_iterates _ _ _ _ _ _ _ Hit) as [_ Hgo].
      replace m with ((j - 0) + S (m - j - 1)) at 2 by lia.
      rewrite Hgo. simpl. rewrite Hf.
      by rewrite (invoke_more_fuel body n m f sj (Thrown e s')) by (done || lia).
    - intros g s0 s1 Hg. apply (invoke_more_fuel body n); [done|done|lia]. }
  split; [done|]. simpl.
  change (λ f0 s0, exec body m (body f0) (record (Invoked f0) s0))
    with (invoke body m).
  by rewrite Hset.
Qed.

Lemma failing_computation_stops_the_write_witness :
  let s := Demo.after 8 Demo.three in
  computationsFor s Demo.target "count"
  = [Demo.show_count; Demo.picky; Demo.show_count'] ∧
  ∃ s', exec Demo.body 10
          (Put Demo.handle_obj "count" (VNum 1) (Push (VStr "after") Ret)) s
        = Thrown (VStr "boom") s' ∧
        invocations (trace s')
        = invocations (trace s) ++ [Demo.show_count; Demo.picky] ∧
        log s' = log s ++ [VNum 1].
Proof.
  intros s. split; [reflexivity|].
  eexists. split.
  - refine (proj2 (failing_computation_stops_the_write
              Demo.body 5 Demo.target "count" (VNum 1) _ s 1 _ Demo.picky
              (VStr "boom") _ _ _ _ 9 _)).
    + eapply iterates_next; [reflexivity|vm_compute; reflexivity|].
      apply iterates_here.
    + reflexivity.
    + vm_compute. reflexivity.
    + simpl. lia.
  - split; vm_compute; reflexivity.
Defined.

(** C9.  Over [{count: 0}], registering a computation that pushes the
    handle's count and then writing 1 and 2 returns with the array equal
    to [0, 1, 2]: the registration ran the callback once, and each write
    ran it once more, after the assignment. *)
Theorem scenario_logs_0_1_2 n :
  6 ≤ n →
  ∃ s', exec Demo.body n Demo.scenario (initial Demo.counter) = Normal s' ∧
        log s' = [VNum 0; VNum 1; VNum 2] ∧
        trace s' = [Invoked Demo.show_count; Observed Demo.target "count" (VNum 0);
                    Invoked Demo.show_count; Observed Demo.target "count" (VNum 1);
                    Invoked Demo.show_count; Observed Demo.target "count" (VNum 2)].
Proof.
  intros Hn. eexists. split.
  - apply (exec_more_fuel Demo.body 6); [vm_compute; reflexivity|done|done].
  - split; reflexivity.
Qed.

Lemma scenario_logs_0_1_2_witness :
  ∃ s', exec Demo.body 20 Demo.scenario (initial Demo.counter) = Normal s' ∧
        log s' = [VNum 0; VNum 1; VNum 2].
Proof.
  destruct (scenario_logs_0_1_2 20) as (s' & Hrun & Hlog & _); [lia|].
  exists s'. by split.
Defined.

(** C10, as the code has it.  Re-runs record nothing under two
    conditions that the code does not enforce.  Let no function of the
    program call [effect], and let the slot be empty when the write is
    made.  Then a read changes nothing; every computation invoked with
    the slot empty ends, however it completes, with the slot still empty
    and the dependency store exactly as it was; and so does the write as
    a whole.  Since nothing is ever removed from the store, no read made
    during the re-runs recorded anything.  When the recorded computations
    are readers the write does complete.  Outside any registration call
    the slot is empty as long as no registration has been left by an
    error: it is, in every state in which top-level code that does not
    catch has returned. *)
Theorem reruns_record_no_dependencies body s :
  (∀ f, effect_free (body f)) →
  currentEffect s = None →
  (∀ t q, handler_get t q s = (read t q s, s)) ∧
  (∀ f n s0 s1,
     currentEffect s0 = None → final (invoke body n f s0) = Some s1 →
     currentEffect s1 = None ∧ targetMap s1 = targetMap s0) ∧
  (∀ target p v n s',
     final (handler_set (invoke body n) n target p v s) = Some s' →
     currentEffect s' = None ∧ targetMap s' = targetMap s) ∧
  (∀ target p v,
     (∀ C, C ∈ computationsFor s target p → observer (body C)) →
     ∃ n1 s', ∀ n, n1 ≤ n →
       handler_set (invoke body n) n target p v s = Normal s') ∧
  (∀ pre h n0 s0,
     plain pre → exec body n0 pre (initial h) = Normal s0 →
     currentEffect s0 = None).
Proof.
  intros Hfree Hidle. split; [|split; [|split; [|split]]].
  - intros t q. unfold handler_get. by rewrite track_idle.
  - intros f n s0 s1 H0 Hrun.
    by apply (effect_free_idle body n (body f) (record (Invoked f) s0) s1).
  - intros target p v n s'. by apply handler_set_idle.
  - intros target p v Hobs.
    destruct (handler_set_observers body target p v s Hidle Hobs)
      as (n1 & s' & Hset & _).
    by exists n1, s'.
  - intros pre h n0 s0 Hpre Hrun.
    by apply (plain_idle body n0 pre (initial h) s0).
Qed.

Lemma reruns_record_no_dependencies_witness :
  let s := Demo.after 10 Demo.main in
  exec Demo.main_body 10 Demo.main (initial Demo.objects) = Normal s ∧
  currentEffect s = None ∧
  (∃ s', handler_set (invoke Demo.main_body 10) 10 Demo.target "show" (VBool true) s
         = Normal s' ∧
         currentEffect s' = None ∧ targetMap s' = targetMap s) ∧
  (∃ n1 s', ∀ n, n1 ≤ n →
     handler_set (invoke Demo.main_body n) n Demo.target "show" (VBool true) s
     = Normal s').
Proof.
  intros s.
  assert (Hfree : ∀ f, effect_free (Demo.main_body f)).
  { intros [|[|f]]; simpl; repeat (constructor || intros || case_decide). }
  assert (Hrun : exec Demo.main_body 10 Demo.main (initial Demo.objects) = Normal s)
    by (vm_compute; reflexivity).
  pose proof (reruns_record_no_dependencies Demo.main_body s Hfree eq_refl)
    as (_ & _ & Hframe & Htotal & Hplain).
  split; [exact Hrun|]. split.
  { apply (Hplain Demo.main Demo.objects 10 s); [|exact Hrun].
    repeat constructor. }
  split.
  - eexists. split; [vm_compute; reflexivity|].
    apply (Hframe Demo.target "show" (VBool true) 10). vm_compute. reflexivity.
  - apply Htotal. intros C HC. vm_compute in HC.
    apply list_elem_of_singleton in HC as ->.
    simpl. repeat (constructor || intros || case_decide).
Defined.

(** C10 as stated fails.  After [effect(show_count)] and a registration of
    [failing] whose error the client caught, no registration call is in
    progress, but the slot still holds [failing]: the write of 1 re-runs
    [show_count], whose read records [failing] under [count].  And with
    the slot empty at the write, a computation that itself calls [effect]
    on a function that throws, and catches, has its later read recorded:
    [curious] is recorded for [count]; the write of 1 re-runs it, and its
    read of [show] puts [failing] in the set of [show], which was
    empty. *)
Lemma rerun_can_record_dependencies :
  (let s := Demo.after 10
              (Effect Demo.show_count (Try (Effect Demo.failing Ret) (λ _, Ret) Ret)) in
   exec Demo.body 10
     (Effect Demo.show_count (Try (Effect Demo.failing Ret) (λ _, Ret) Ret))
     (initial Demo.objects) = Normal s ∧
   currentEffect s = Some Demo.failing ∧
   computationsFor s Demo.target "count" = [Demo.show_count] ∧
   ∃ s', exec Demo.body 10 (Put Demo.handle_obj "count" (VNum 1) Ret) s
         = Thrown (VStr "boom") s' ∧
         computationsFor s' Demo.target "count" = [Demo.show_count; Demo.failing]) ∧
  (let s := Corner.after 10 (Effect Corner.curious Ret) in
   exec Corner.body 10 (Effect Corner.curious Ret) (initial Demo.objects)
   = Normal s ∧
   currentEffect s = None ∧
   computationsFor s Demo.target "count" = [Corner.curious] ∧
   computationsFor s Demo.target "show" = [] ∧
   ∃ s', exec Corner.body 10 (Put Demo.handle_obj "count" (VNum 1) Ret) s
         = Normal s' ∧
         computationsFor s' Demo.target "show" = [Demo.failing] ∧
         currentEffect s' = Some Demo.failing).
Proof.
  split.
  - split; [vm_compute; reflexivity|]. split; [reflexivity|]. split; [reflexivity|].
    eexists. split; [vm_compute; reflexivity|]. reflexivity.
  - split; [vm_compute; reflexivity|]. split; [reflexivity|]. split; [reflexivity|].
    split; [reflexivity|].
    eexists. split; [vm_compute; reflexivity|]. split; reflexivity.
Qed.

(* ===================================================================== *)
(*  Further properties of reactive.js and of its callers                 *)
(* ===================================================================== *)

(* --------------------------------------------------------------------- *)
(*  What no run ever does to the store and to the objects                *)
(* --------------------------------------------------------------------- *)

Lemma set_add_prefix c (l : list fn) : l `prefix_of` set_add c l.
Proof.
  unfold set_add. destruct (decide (c ∈ l)); [done|]. by apply prefix_app_r.
Qed.

Lemma computationsFor_track_prefix target p s t q :
  computationsFor s t q `prefix_of` computationsFor (track target p s) t q.
Proof.
  destruct (decide ((t, q) = (target, p))) as [[= -> ->]|Hne].
  - destruct (currentEffect s) as [c|] eqn:Hc.
    + rewrite (computationsFor_track_same _ _ _ c) by done. apply set_add_prefix.
    + by rewrite track_idle.
  - by rewrite computationsFor_track_other.
Qed.

(** X1.  Nothing is ever taken out of the dependency store, and the order
    inside a set never changes: over any run of any program, however it
    completes, the set of every (object, property) pair before the run is
    an initial segment of the set after it. *)
Theorem store_only_grows body n c s s' :
  final (exec body n c s) = Some s' →
  ∀ target p, computationsFor s target p `prefix_of` computationsFor s' target p.
Proof.
  apply (exec_preserves body (λ _, True)
           (λ s1 s2, ∀ t q, computationsFor s1 t q `prefix_of` computationsFor s2 t q));
    try done.
  - intros s1 s2 s3 H12 H23 t q.
    destruct (H12 t q) as [k1 E1]. destruct (H23 t q) as [k2 E2].
    exists (k1 ++ k2). by rewrite E2, E1, <- app_assoc.
  - intros target p s0 t q. apply computationsFor_track_prefix.
Qed.

Lemma store_only_grows_witness :
  let s := Demo.after 10 (Effect Demo.show_count Ret) in
  ∃ s', exec Demo.body 10 (Effect Demo.picky (Effect Demo.failing Ret)) s
        = Thrown (VStr "boom") s' ∧
        computationsFor s Demo.target "count" = [Demo.show_count] ∧
        computationsFor s' Demo.target "count" = [Demo.show_count; Demo.picky] ∧
        computationsFor s Demo.target "count"
          `prefix_of` computationsFor s' Demo.target "count".
Proof.
  intros s. eexists. split; [vm_compute; reflexivity|].
  split; [reflexivity|]. split; [reflexivity|].
  apply (store_only_grows Demo.body 10
           (Effect Demo.picky (Effect Demo.failing Ret)) s).
  vm_compute. reflexivity.
Defined.

(** X2.  Set semantics is kept throughout: in every state that any
    program reaches from the freshly loaded module, however the run
    completes, no set of the dependency store holds a computation
    twice. *)
Theorem store_sets_have_no_duplicates body n c h s' :
  final (exec body n c (initial h)) = Some s' →
  ∀ target p, NoDup (computationsFor s' target p).
Proof.
  intros Hrun. by apply (exec_dedup body n c (initial h) s' (dedup_initial h)).
Qed.

Lemma store_sets_have_no_duplicates_witness :
  ∃ s', exec Demo.body 10
          (Effect Demo.show_count (Effect Demo.show_count Demo.three))
          (initial Demo.objects) = Normal s' ∧
        computationsFor s' Demo.target "count"
        = [Demo.show_count; Demo.picky; Demo.show_count'] ∧
        NoDup (computationsFor s' Demo.target "count").
Proof.
  eexists. split; [vm_compute; reflexivity|]. split; [reflexivity|].
  apply (store_sets_have_no_duplicates Demo.body 10
           (Effect Demo.show_count (Effect Demo.show_count Demo.three))
           Demo.objects).
  vm_compute. reflexivity.
Defined.

(** X3.  Reading and registering never change a wrapped object: over any
    run of a program in which no code writes through a handle (it may
    read, register, nest registrations, throw and catch), however the run
    completes, the objects are exactly as before. *)
Theorem reads_and_registrations_leave_objects_alone body n : ∀ c s s',
  (∀ f, put_free (body f)) → put_free c →
  final (exec body n c s) = Some s' → heap s' = heap s.
Proof.
  induction n as [|n IH]; intros c s s' Hbody Hc; [done|].
  assert (Hcall : ∀ f s0 s1,
    final (exec body n (body f) (record (Invoked f) s0)) = Some s1 →
    heap s1 = heap s0).
  { intros f s0 s1 H. by rewrite (IH _ _ _ Hbody (Hbody f) H). }
  destruct Hc as [|e|[target] p k Hk|f k Hk|v k Hk|b h k Hb Hh Hk]; simpl.
  - by intros [= <-].
  - by intros [= <-].
  - intros H. rewrite (IH _ _ _ Hbody (Hk _) H). simpl. apply heap_track.
  - assert (Heff : ∀ s1, final (effect
        (λ f0 s0, exec body n (body f0) (record (Invoked f0) s0)) f s) = Some s1 →
        heap s1 = heap s).
    { unfold effect. intros s1. destruct (currentEffect s) as [c|]; simpl.
      - by intros [= <-].
      - intros [(s2 & Hc & Hclear)|(e & Hc)]%final_and_then.
        + simpl in Hclear. injection Hclear as <-. simpl.
          rewrite (Hcall f (set_currentEffect (Some f) s) s2); [done|by rewrite Hc].
        + rewrite (Hcall f (set_currentEffect (Some f) s) s1); [done|by rewrite Hc]. }
    intros [(s1 & He & Hrest)|(e & He)]%final_and_then.
    + rewrite (IH _ _ _ Hbody Hk Hrest). apply Heff. by rewrite He.
    + apply Heff. by rewrite He.
  - intros H. by rewrite (IH _ _ _ Hbody Hk H).
  - destruct (exec body n b s) as [s1|e s1|] eqn:Eb; [| |done].
    + intros H. rewrite (IH _ _ _ Hbody Hk H).
      apply (IH b); [done..|by rewrite Eb].
    + intros [(s2 & Hc & Hrest)|(e' & Hc)]%final_and_then.
      * rewrite (IH _ _ _ Hbody Hk Hrest).
        rewrite (IH (h e) s1 s2); [|done..|by rewrite Hc].
        apply (IH b); [done..|by rewrite Eb].
      * rewrite (IH (h e) s1 s'); [|done..|by rewrite Hc].
        apply (IH b); [done..|by rewrite Eb].
Qed.

Lemma reads_and_registrations_leave_objects_alone_witness :
  ∃ s', exec Demo.body 10
          (Try (Effect Demo.failing Ret) (λ _, Ret) (Effect Demo.outer Demo.three))
          (initial Demo.objects) = Normal s' ∧
        heap s' = Demo.objects.
Proof.
  eexists. split; [vm_compute; reflexivity|].
  apply (reads_and_registrations_leave_objects_alone Demo.body 10
           (Try (Effect Demo.failing Ret) (λ _, Ret) (Effect Demo.outer Demo.three))
           (initial Demo.objects)).
  - intros f. do 7 (destruct f as [|f]; [simpl; repeat (constructor || intros || case_decide)|]).
    constructor.
  - repeat (constructor || intros).
  - vm_compute. reflexivity.
Defined.

(* --------------------------------------------------------------------- *)
(*  What a registration records                                          *)
(* --------------------------------------------------------------------- *)

Lemma observed_app tr1 tr2 : observed (tr1 ++ tr2) = observed tr1 ++ observed tr2.
Proof. apply omap_app. Qed.

(** A reader run as the active computation [f]: the sets of the pairs it
    read have gained [f], the other sets are untouched. *)
Lemma observe_records K c :
  reader K c → ∀ s f, currentEffect s = Some f →
  ∃ tr, trace (observe c s) = trace s ++ tr ∧
        invocations tr = [] ∧
        ∀ t q, computationsFor (observe c s) t q
               = if decide ((t, q) ∈ observed tr)
                 then set_add f (computationsFor s t q)
                 else computationsFor s t q.
Proof.
  intros H. reader_induction H; intros f Hc.
  - exists []. rewrite app_nil_r. split; [done|]. split; [done|]. intros t q.
    destruct (decide ((t, q) ∈ observed [])) as [Hin|]; [|done].
    by apply elem_of_nil in Hin.
  - set (w := read target p (track target p s)).
    set (s1 := record (Observed target p w) (track target p s)).
    assert (Hc1 : currentEffect s1 = Some f)
      by (unfold s1; simpl; by rewrite currentEffect_track).
    destruct (IH w s1 f Hc1) as (tr & Htr & Hinv & Hst).
    exists (Observed target p w :: tr). split; [|split].
    + rewrite Htr. unfold s1. simpl. rewrite <- app_assoc. f_equal.
      unfold track. by destruct (currentEffect s).
    + done.
    + intros t q. rewrite Hst.
      change (computationsFor s1 t q) with (computationsFor (track target p s) t q).
      simpl. destruct (decide ((t, q) = (target, p))) as [[= -> ->]|Hne].
      * rewrite (computationsFor_track_same _ _ _ f) by done.
        rewrite (decide_True (P := (target, p) ∈ (target, p) :: observed tr))
          by (apply elem_of_cons; by left).
        destruct (decide ((target, p) ∈ observed tr)); [apply set_add_idem|done].
      * rewrite computationsFor_track_other by done.
        destruct (decide ((t, q) ∈ observed tr)) as [Hin|Hnot].
        -- rewrite decide_True; [done|]. apply elem_of_cons. by right.
        -- rewrite decide_False; [done|].
           intros [?|?]%elem_of_cons; done.
  - destruct (IH (push_log v s) f Hc) as (tr & Htr & Hinv & Hst).
    exists tr. split; [by rewrite Htr|]. split; [done|]. intros t q. by rewrite Hst.
Qed.

(** X4.  A registration records exactly the reads.  Registering a reader
    [f] with [effect] while the slot is empty returns; [f] was invoked
    once, as the first thing that happened, and nothing else was invoked;
    and for every (object, property) pair, if [f] read it during that run
    its set has gained [f] (at the end, unless [f] was in it already),
    and if [f] did not read it its set is exactly as before. *)
Theorem registration_records_exactly_the_reads body f s :
  observer (body f) →
  currentEffect s = None →
  ∃ n0 tr,
    (∀ n, n0 ≤ n → effect (invoke body n) f s = Normal (registration body f s)) ∧
    trace (registration body f s) = trace s ++ Invoked f :: tr ∧
    invocations tr = [] ∧
    ∀ target p,
      computationsFor (registration body f s) target p
      = if decide ((target, p) ∈ observed tr)
        then set_add f (computationsFor s target p)
        else computationsFor s target p.
Proof.
  intros Hobs Hidle.
  destruct (effect_reader body _ f s Hobs Hidle) as [n0 Hn0].
  destruct (observe_records _ _ Hobs
              (record (Invoked f) (set_currentEffect (Some f) s)) f eq_refl)
    as (tr & Htr & Hinv & Hst).
  exists n0, tr. split; [done|]. split; [|split; [done|]].
  - unfold registration. simpl. rewrite Htr. simpl. by rewrite <- app_assoc.
  - intros target p. unfold registration.
    change (computationsFor (set_currentEffect None ?x) target p)
      with (computationsFor x target p).
    by rewrite Hst.
Qed.

Lemma registration_records_exactly_the_reads_witness :
  let s := registration Demo.body Demo.toggle_image (initial Demo.objects) in
  currentEffect (initial Demo.objects) = None ∧
  effect (invoke Demo.body 10) Demo.toggle_image (initial Demo.objects) = Normal s ∧
  computationsFor s Demo.target "show" = [Demo.toggle_image] ∧
  computationsFor s Demo.target "count" = [] ∧
  ∃ n0 tr,
    (∀ n, n0 ≤ n →
       effect (invoke Demo.body n) Demo.toggle_image (initial Demo.objects)
       = Normal s) ∧
    trace s = Invoked Demo.toggle_image :: tr.
Proof.
  intros s. split; [reflexivity|]. split; [vm_compute; reflexivity|].
  split; [reflexivity|]. split; [reflexivity|].
  destruct (registration_records_exactly_the_reads
              Demo.body Demo.toggle_image (initial Demo.objects))
    as (n0 & tr & Hrun & Htr & _).
  - simpl. repeat (constructor || intros || case_decide).
  - reflexivity.
  - exists n0, tr. split; [exact Hrun|exact Htr].
Defined.

(* --------------------------------------------------------------------- *)
(*  Order of the re-runs                                                 *)
(* --------------------------------------------------------------------- *)



(* --------------------------------------------------------------------- *)
(*  Reading and then writing through a handle                            *)
(* --------------------------------------------------------------------- *)

Lemma read_assign_other target p v s t q :
  (t, q) ≠ (target, p) → read t q (assign target p v s) = read t q s.
Proof.
  intros Hne. unfold read, assign. simpl.
  destruct (decide (t = target)) as [->|Ht].
  - rewrite lookup_insert_eq. assert (q ≠ p) by congruence.
    rewrite lookup_insert_ne by done.
    destruct (heap s !! target); simpl; [done|by rewrite lookup_empty].
  - by rewrite lookup_insert_ne.
Qed.

(** [update] over readers, outside a registration. *)
Lemma update_observers body target p g s :
  currentEffect s = None →
  (∀ C, C ∈ computationsFor s target p → observer (body C)) →
  let old := read target p s in
  ∃ n0 s' tr,
    (∀ n, n0 ≤ n → exec body n (update (reactiveIt target) p g) s = Normal s') ∧
    read target p s' = g old ∧
    (∀ t q, (t, q) ≠ (target, p) → read t q s' = read t q s) ∧
    targetMap s' = targetMap s ∧
    currentEffect s' = None ∧
    trace s' = trace s ++ Observed target p old :: tr ∧
    invocations tr = computationsFor s target p ∧
    (∀ w, Observed target p w ∈ tr → w = g old).
Proof.
  intros Hidle Hobs old.
  set (s0 := record (Observed target p old) s).
  destruct (handler_set_observers body target p (g old) s0)
    as (n0 & s' & Hrun & Hheap & Hslot & Hstore & tr & Htr & Hinv & Hall);
    [done|done|].
  exists (S (S (S n0))), s', tr.
  split; [|split; [|split; [|split; [|split; [|split; [|split]]]]]].
  - intros [|[|n]] Hn; [lia..|]. simpl.
    unfold handler_get. rewrite (track_idle target p s Hidle). fold old. fold s0.
    change (λ f s1, exec body n (body f) (record (Invoked f) s1))
      with (invoke body n).
    rewrite Hrun by lia. simpl. destruct n; [lia|done].
  - rewrite (read_ext _ s') by done. apply read_assign.
  - intros t q Hne. rewrite (read_ext _ s') by done.
    by rewrite read_assign_other.
  - by rewrite Hstore.
  - by rewrite Hslot.
  - rewrite Htr. simpl. by rewrite <- app_assoc.
  - done.
  - intros w Hw. rewrite Forall_forall in Hall.
    destruct (Hall _ Hw) as [[f [=]]|(t & q & [= -> -> ->])].
    apply read_assign.
Qed.

(** X6.  [h[p] = g(h[p])] through a handle, for a property name that
    [Object.prototype] does not define, made while no registration is in
    progress, when the computations recorded for the property are
    readers: the statement returns; the property holds [g] of its old
    value and every other property of every object is as before; the
    dependency store is untouched (the read recorded nothing); and the
    recorded computations were re-run after the assignment, once each in
    the order of the set, every look at the property showing the new
    value. *)
Theorem read_modify_write body target p g s :
  data_key p →
  currentEffect s = None →
  (∀ C, C ∈ computationsFor s target p → observer (body C)) →
  let old := read target p s in
  ∃ n0 s' tr,
    (∀ n, n0 ≤ n → exec body n (update (reactiveIt target) p g) s = Normal s') ∧
    read target p s' = g old ∧
    (∀ t q, (t, q) ≠ (target, p) → read t q s' = read t q s) ∧
    targetMap s' = targetMap s ∧
    currentEffect s' = None ∧
    trace s' = trace s ++ Observed target p old :: tr ∧
    invocations tr = computationsFor s target p ∧
    (∀ w, Observed target p w ∈ tr → w = g old).
Proof.
  intros _ Hidle Hobs old.
  destruct (update_observers body target p g s Hidle Hobs)
    as (n0 & s' & tr & Hrun & Hnew & Hother & Hstore & Hslot & Htr & Hinv & Hsee).
  exists n0, s', tr. split; [exact Hrun|]. split; [exact Hnew|].
  split; [exact Hother|]. split; [exact Hstore|]. split; [exact Hslot|].
  split; [exact Htr|]. split; [exact Hinv|exact Hsee].
Qed.

Lemma read_modify_write_witness :
  let s := Demo.after 10 Demo.main in
  data_key "show" ∧
  currentEffect s = None ∧
  computationsFor s Demo.target "show" = [Demo.toggle_image] ∧
  ∃ n0 s' tr,
    (∀ n, n0 ≤ n → exec Demo.body n Main.toggle_click s = Normal s') ∧
    read Demo.target "show" s' = VBool true ∧
    read Demo.target "count" s' = VNum 0 ∧
    invocations tr = [Demo.toggle_image].
Proof.
  intros s.
  assert (Hkey : data_key "show") by solve_data_key.
  split; [exact Hkey|]. split; [reflexivity|]. split; [reflexivity|].
  destruct (read_modify_write Demo.body Demo.target "show" js_not s)
    as (n0 & s' & tr & Hrun & Hnew & Hother & _ & _ & _ & Hinv & _).
  - exact Hkey.
  - reflexivity.
  - intros C HC. vm_compute in HC. apply list_elem_of_singleton in HC as ->.
    simpl. repeat (constructor || intros || case_decide).
  - exists n0, s', tr. split; [exact Hrun|]. split; [exact Hnew|].
    split; [|exact Hinv].
    rewrite (Hother Demo.target "count"); [reflexivity|discriminate].
Defined.

Lemma js_not_involutive_on_booleans v : js_not (js_not v) = VBool (truthy v).
Proof. unfold js_not. simpl. by rewrite negb_involutive. Qed.

(** X7.  The click handler [obj.show = !obj.show] of main.js, run twice
    (two clicks) while no registration is in progress and the
    computations recorded for [show] are readers: both clicks return;
    after the first, [show] is the negation of what it was; after the
    second it is the boolean its first value counted as (so a boolean is
    back to itself); no other property has changed; the dependency store
    is as before; and the recorded computations ran once per click, in the
    order of the set. *)
Theorem two_clicks_toggle_back body s :
  currentEffect s = None →
  (∀ C, C ∈ computationsFor s Demo.target "show" → observer (body C)) →
  let old := read Demo.target "show" s in
  ∃ n0 s1 s2 tr,
    (∀ n, n0 ≤ n → exec body n Main.toggle_click s = Normal s1 ∧
                   exec body n Main.toggle_click s1 = Normal s2) ∧
    read Demo.target "show" s1 = VBool (negb (truthy old)) ∧
    read Demo.target "show" s2 = VBool (truthy old) ∧
    (∀ t q, (t, q) ≠ (Demo.target, "show") → read t q s2 = read t q s) ∧
    targetMap s2 = targetMap s ∧
    trace s2 = trace s ++ tr ∧
    invocations tr = computationsFor s Demo.target "show"
                     ++ computationsFor s Demo.target "show".
Proof.
  intros Hidle Hobs old.
  destruct (update_observers body Demo.target "show" js_not s Hidle Hobs)
    as (n1 & s1 & tr1 & Hrun1 & Hnew1 & Hoth1 & Hst1 & Hc1 & Htr1 & Hinv1 & _).
  assert (Hsame : computationsFor s1 Demo.target "show"
                  = computationsFor s Demo.target "show")
    by by apply computationsFor_ext.
  destruct (update_observers body Demo.target "show" js_not s1 Hc1)
    as (n2 & s2 & tr2 & Hrun2 & Hnew2 & Hoth2 & Hst2 & Hc2 & Htr2 & Hinv2 & _).
  { by rewrite Hsame. }
  exists (n1 + n2), s1, s2,
    (Observed Demo.target "show" old :: tr1
     ++ Observed Demo.target "show" (read Demo.target "show" s1) :: tr2).
  split; [|split; [|split; [|split; [|split; [|split]]]]].
  - intros n Hn. split; [apply Hrun1|apply Hrun2]; lia.
  - exact Hnew1.
  - rewrite Hnew2, Hnew1. apply js_not_involutive_on_booleans.
  - intros t q Hne. by rewrite Hoth2, Hoth1.
  - by rewrite Hst2.
  - rewrite Htr2, Htr1. by rewrite <- app_assoc.
  - simpl. rewrite invocations_app. simpl. by rewrite Hinv1, Hinv2, Hsame.
Qed.

Lemma two_clicks_toggle_back_witness :
  let s := Demo.after 10 Demo.main in
  currentEffect s = None ∧
  read Demo.target "show" s = VBool false ∧
  ∃ n0 s1 s2 tr,
    (∀ n, n0 ≤ n → exec Demo.body n Main.toggle_click s = Normal s1 ∧
                   exec Demo.body n Main.toggle_click s1 = Normal s2) ∧
    read Demo.target "show" s1 = VBool true ∧
    read Demo.target "show" s2 = VBool false ∧
    trace s2 = trace s ++ tr ∧
    invocations tr = [Demo.toggle_image; Demo.toggle_image].
Proof.
  intros s. split; [reflexivity|]. split; [reflexivity|].
  destruct (two_clicks_toggle_back Demo.body s)
    as (n0 & s1 & s2 & tr & Hrun & H1 & H2 & _ & _ & Htr & Hinv).
  - reflexivity.
  - intros C HC. vm_compute in HC. apply list_elem_of_singleton in HC as ->.
    simpl. repeat (constructor || intros || case_decide).
  - exists n0, s1, s2, tr. split; [exact Hrun|]. split; [exact H1|].
    split; [exact H2|]. split; [exact Htr|exact Hinv].
Defined.

(* --------------------------------------------------------------------- *)
(*  Registrations that go wrong                                          *)
(* --------------------------------------------------------------------- *)

(** X8.  A computation that calls [effect] before it reads records
    nothing.  Let the code of [outer] be [effect(g); k] with [k] a
    reader.  Registering [outer] while the slot is empty returns; [g] was
    not invoked (only [outer] was, once); and although [k] has read
    through the handles, the dependency store is exactly as before: the
    nested call emptied the slot, so none of the reads was recorded. *)
Theorem nested_registration_records_nothing body outer g k s :
  body outer = Effect g k →
  observer k →
  currentEffect s = None →
  ∃ n0 s' tr,
    (∀ n, n0 ≤ n → effect (invoke body n) outer s = Normal s') ∧
    targetMap s' = targetMap s ∧
    heap s' = heap s ∧
    currentEffect s' = None ∧
    trace s' = trace s ++ Invoked outer :: tr ∧
    invocations tr = [].
Proof.
  intros Hbody Hk Hidle.
  set (s0 := set_currentEffect None
               (record (Invoked outer) (set_currentEffect (Some outer) s))).
  destruct (exec_observe body _ _ Hk s0) as [n0 Hn0].
  destruct (trace_observe _ _ Hk s0) as (tr & Htr & Hall).
  exists (S n0), (set_currentEffect None (observe k s0)), tr.
  split; [|split; [|split; [|split; [|split]]]]; simpl.
  - intros [|n] Hn; [lia|]. unfold effect, invoke. rewrite Hidle, Hbody. simpl.
    unfold effect. simpl. fold s0. by rewrite Hn0 by lia.
  - by rewrite (targetMap_observe_idle _ _ Hk).
  - by rewrite (heap_observe _ _ Hk).
  - done.
  - rewrite Htr. simpl. by rewrite <- app_assoc.
  - apply (invocations_observations (λ _ _ _, True)).
    eapply Forall_impl; [exact Hall|]. intros e (t & q & _ & ->). eauto.
Qed.

Lemma nested_registration_records_nothing_witness :
  currentEffect (initial Demo.objects) = None ∧
  ∃ n0 s' tr,
    (∀ n, n0 ≤ n →
       effect (invoke Demo.body n) Demo.outer (initial Demo.objects) = Normal s') ∧
    targetMap s' = ∅ ∧
    trace s' = Invoked Demo.outer :: tr ∧
    invocations tr = [].
Proof.
  split; [reflexivity|].
  destruct (nested_registration_records_nothing Demo.body Demo.outer Demo.inner
              (Get Demo.handle_obj "count" (λ v, Push v Ret)) (initial Demo.objects))
    as (n0 & s' & tr & Hrun & Hst & _ & _ & Htr & Hinv).
  - reflexivity.
  - repeat (constructor || intros).
  - reflexivity.
  - exists n0, s', tr. split; [exact Hrun|]. split; [exact Hst|].
    split; [exact Htr|exact Hinv].
Defined.

Lemma trace_registration body f s :
  observer (body f) →
  ∃ tr, trace (registration body f s) = trace s ++ Invoked f :: tr ∧
        invocations tr = [].
Proof.
  intros Hf. unfold registration.
  destruct (trace_observe _ _ Hf
              (record (Invoked f) (set_currentEffect (Some f) s)))
    as (tr & Htr & Hall).
  exists tr. split.
  - simpl. rewrite Htr. simpl. by rewrite <- app_assoc.
  - apply (invocations_observations (λ _ _ _, True)).
    eapply Forall_impl; [exact Hall|]. intros e (t & q & _ & ->). eauto.
Qed.

(** X9.  With the slot left set (by a registration whose callback threw,
    or inside a running registration), the next call of [effect] is lost
    and the one after it works: [effect(f); effect(g)], for any [f] and a
    reader [g], returns having registered [g] as from an empty slot; the
    first call invoked nothing, whatever the code of [f]: the one
    invocation made is that of [g] by the second call. *)
Theorem registration_after_set_slot_is_lost body f g s c :
  currentEffect s = Some c →
  observer (body g) →
  ∃ n0 tr,
    (∀ n, n0 ≤ n →
       exec body n (Effect f (Effect g Ret)) s
       = Normal (registration body g (set_currentEffect None s))) ∧
    trace (registration body g (set_currentEffect None s))
    = trace s ++ Invoked g :: tr ∧
    invocations tr = [].
Proof.
  intros Hc Hg.
  destruct (effect_reader body _ g (set_currentEffect None s) Hg eq_refl) as [n0 Hn0].
  destruct (trace_registration body g (set_currentEffect None s) Hg)
    as (tr & Htr & Hinv).
  exists (S (S (S n0))), tr. split; [|by split].
  intros [|[|n]] Hn; [lia..|].
  cbn [exec]. unfold effect at 1. rewrite Hc. cbn [and_then].
  change (λ f0 s0, exec body n (body f0) (record (Invoked f0) s0))
    with (invoke body n).
  rewrite Hn0 by lia. cbn [and_then]. destruct n; [lia|done].
Qed.

Lemma registration_after_set_slot_is_lost_witness :
  let s := record (Invoked Demo.failing)
             (set_currentEffect (Some Demo.failing) (initial Demo.objects)) in
  let s' := registration Demo.body Demo.toggle_image (set_currentEffect None s) in
  effect (invoke Demo.body 5) Demo.failing (initial Demo.objects)
  = Thrown (VStr "boom") s ∧
  currentEffect s = Some Demo.failing ∧
  computationsFor s' Demo.target "count" = [] ∧
  computationsFor s' Demo.target "show" = [Demo.toggle_image] ∧
  ∃ n0, ∀ n, n0 ≤ n →
    exec Demo.body n (Effect Demo.show_count (Effect Demo.toggle_image Ret)) s
    = Normal s'.
Proof.
  intros s s'. split; [reflexivity|]. split; [reflexivity|].
  split; [reflexivity|]. split; [reflexivity|].
  destruct (registration_after_set_slot_is_lost
              Demo.body Demo.show_count Demo.toggle_image s Demo.failing)
    as (n0 & tr & Hrun & _).
  - reflexivity.
  - simpl. repeat (constructor || intros || case_decide).
  - exists n0. exact Hrun.
Defined.

(* --------------------------------------------------------------------- *)
(*  Writes made by computations                                          *)
(* --------------------------------------------------------------------- *)

(** X11.  A computation that keeps one property equal to a function of
    another, for property names that [Object.prototype] does not define.
    Let [D], with code [h'[q] = g(h[p])], be the one computation
    recorded for (t, p), and let the computations recorded for (t', q) be
    readers.  A write of [v] to [p], made while no
    registration is in progress, returns with [p] holding [v] and [q]
    holding [g v]; [D] ran first and the readers of [q] ran inside its
    write, in the order of their set, every look at [q] showing [g v];
    the dependency store is as before. *)
Theorem derived_property_follows body D t p t' q g v s :
  data_key p →
  data_key q →
  (t, p) ≠ (t', q) →
  body D = Get (reactiveIt t) p (λ w, Put (reactiveIt t') q (g w) Ret) →
  currentEffect s = None →
  computationsFor s t p = [D] →
  (∀ C, C ∈ computationsFor s t' q → observer (body C)) →
  ∃ n0 s' tr,
    (∀ n, n0 ≤ n → exec body n (Put (reactiveIt t) p v Ret) s = Normal s') ∧
    read t p s' = v ∧
    read t' q s' = g v ∧
    targetMap s' = targetMap s ∧
    currentEffect s' = None ∧
    trace s' = trace s ++ tr ∧
    invocations tr = D :: computationsFor s t' q ∧
    (∀ w, Observed t' q w ∈ tr → w = g v).
Proof.
  intros _ _ Hne HD Hidle Hl Hobs.
  set (s0 := assign t p v s).
  set (sD := record (Observed t p v) (record (Invoked D) s0)).
  destruct (handler_set_observers body t' q (g v) sD)
    as (n1 & s' & Hrun & Hheap & Hslot & Hstore & tr & Htr & Hinv & Hall);
    [done|done|].
  assert (HinvD : ∀ n, n1 + 3 ≤ n → invoke body n D s0 = Normal s').
  { intros [|[|n]] Hn; [clear -Hn; lia..|].
    unfold invoke. rewrite HD. cbn [exec reactiveIt].
    unfold handler_get. rewrite track_idle by done.
    replace (read t p (record (Invoked D) s0)) with v
      by (symmetry; apply read_assign).
    fold sD. cbn [exec].
    change (λ f s1, exec body n (body f) (record (Invoked f) s1))
      with (invoke body n).
    rewrite Hrun by (clear -Hn; lia). cbn [and_then].
    destruct n; [clear -Hn; lia|done]. }
  exists (n1 + 5), s', (Invoked D :: Observed t p v :: tr).
  split; [|split; [|split; [|split; [|split; [|split; [|split]]]]]].
  - intros [|m] Hn; [clear -Hn; lia|]. cbn [exec reactiveIt].
    change (λ f s1, exec body m (body f) (record (Invoked f) s1))
      with (invoke body m).
    unfold handler_set. rewrite trigger_forEach. fold s0.
    destruct m as [|n]; [clear -Hn; lia|]. cbn [forEach].
    change (computationsFor s0 t p) with (computationsFor s t p). rewrite Hl.
    cbn [lookup list_lookup]. rewrite HinvD by (clear -Hn; lia). cbn [and_then].
    assert (Hl' : computationsFor s' t p = [D])
      by (rewrite (computationsFor_ext sD s') by (by rewrite Hstore); exact Hl).
    destruct n; [clear -Hn; lia|]. cbn [forEach]. rewrite Hl'. done.
  - rewrite (read_ext _ s') by done.
    rewrite read_assign_other by (intros [= -> ->]; done).
    apply read_assign.
  - rewrite (read_ext _ s') by done. apply read_assign.
  - by rewrite Hstore.
  - by rewrite Hslot.
  - rewrite Htr. simpl. by rewrite <- !app_assoc.
  - simpl. by rewrite Hinv.
  - intros w [Hw|[Hw|Hw]%elem_of_cons]%elem_of_cons; [done| |].
    + injection Hw as -> -> ->. done.
    + rewrite Forall_forall in Hall.
      destruct (Hall _ Hw) as [[f [=]]|(t0 & q0 & [= -> -> ->])].
      apply read_assign.
Qed.

Lemma derived_property_follows_witness :
  let s := Main.after 10 (Effect Main.mirror (Effect Main.show_shown Ret)) in
  data_key "count" ∧ data_key "shown" ∧
  currentEffect s = None ∧
  computationsFor s Demo.target "count" = [Main.mirror] ∧
  computationsFor s Demo.target "shown" = [Main.show_shown] ∧
  ∃ n0 s' tr,
    (∀ n, n0 ≤ n →
       exec Main.body n (Put Demo.handle_obj "count" (VNum 5) Ret) s = Normal s') ∧
    read Demo.target "count" s' = VNum 5 ∧
    read Demo.target "shown" s' = VNum 5 ∧
    invocations tr = [Main.mirror; Main.show_shown].
Proof.
  intros s.
  assert (Hp0 : data_key "count") by solve_data_key.
  assert (Hq0 : data_key "shown") by solve_data_key.
  split; [exact Hp0|]. split; [exact Hq0|].
  split; [reflexivity|]. split; [reflexivity|]. split; [reflexivity|].
  destruct (derived_property_follows Main.body Main.mirror
              Demo.target "count" Demo.target "shown" (λ w, w) (VNum 5) s)
    as (n0 & s' & tr & Hrun & Hp & Hq & _ & _ & _ & Hinv & _).
  - exact Hp0.
  - exact Hq0.
  - discriminate.
  - reflexivity.
  - reflexivity.
  - reflexivity.
  - intros C HC. vm_compute in HC. apply list_elem_of_singleton in HC as ->.
    simpl. repeat (constructor || intros).
  - exists n0, s', tr. split; [exact Hrun|]. split; [exact Hp|].
    split; [exact Hq|exact Hinv].
Defined.

(* --------------------------------------------------------------------- *)
(*  Several objects                                                      *)
(* --------------------------------------------------------------------- *)


